(** * LM Studio image renamer: the rename pipeline and its batch runner

    A shallow embedding of [src/lib/lmstudio.ts] and of [Command] and
    [processImages] in [src/rename-images.tsx], with the properties of the
    pipeline proved over it.

    Conventions of the embedding.
    - A JavaScript string is the list of its UTF-16 code units ([jsstr]).
    - The file system is a finite map from path strings, as they are handed
      to the [fs] calls, to file contents: two path strings are two files.
      Directories, links and case folding by the operating system are not
      modelled.
    - Everything the program cannot control is read from an environment
      record, one per task: the clock, the [sips] process, what the shell
      does with a command line that its quoting does not protect, the HTTP
      server, failures of [readFileSync], [unlinkSync] and [renameSync],
      the case mapping of the engine outside ASCII and the wording of its
      [TypeError]s.
    - The body of a response is any JSON value: the code casts it without a
      check.
    - [counter] in [getUniqueFilename] is an unbounded natural number.
    - The [while] loop of [getUniqueFilename] is run with fuel; [None]
      means that the loop has not finished within the fuel. *)

From Stdlib Require Import NArith List Lia Ascii String.
From Stdlib Require Import Decimal DecimalNat DecimalString.
From stdpp Require Import gmap list.

Local Open Scope N_scope.

(** ** JavaScript strings *)

Module JS.

(** A string is its sequence of UTF-16 code units. *)
Abbreviation jsstr := (list N).

(** Literals: every character of an ASCII literal is one code unit. *)
Definition lit (s : string) : jsstr :=
  List.map N_of_ascii (list_ascii_of_string s).

(** [`${n}`] for a non-negative integer counter: its decimal digits. *)
Definition dec (n : nat) : jsstr :=
  lit (NilEmpty.string_of_uint (Nat.to_uint n)).

(** The same for a natural number held in binary (a time stamp). *)
Definition dec_N (n : N) : jsstr :=
  lit (NilEmpty.string_of_uint (N.to_uint n)).

Definition SLASH : N := 47.
Definition DOT : N := 46.
Definition SPACE : N := 32.
Definition UNDERSCORE : N := 95.

(** White space and line terminators of ECMAScript: what [\s] matches and
    what [String.prototype.trim] removes. *)
Definition is_whitespace (c : N) : bool :=
  ((9 <=? c) && (c <=? 13))
  || (c =? 32) || (c =? 160) || (c =? 5760)
  || ((8192 <=? c) && (c <=? 8202))
  || (c =? 8232) || (c =? 8233) || (c =? 8239) || (c =? 8287)
  || (c =? 12288) || (c =? 65279).

Fixpoint trimStart (s : jsstr) : jsstr :=
  match s with
  | [] => []
  | c :: r => if is_whitespace c then trimStart r else s
  end.

Definition trimEnd (s : jsstr) : jsstr := rev (trimStart (rev s)).

Definition trim (s : jsstr) : jsstr := trimEnd (trimStart s).

(** [s.substring(0, n)] *)
Definition substring0 (n : nat) (s : jsstr) : jsstr := take n s.

(** A string without a path separator. *)
Definition no_slash (s : jsstr) : bool := forallb (λ c, negb (c =? SLASH)) s.

(** [String.prototype.toLowerCase].  On a string of ASCII characters it
    maps the letters [A-Z] to [a-z], one by one.  On any other string it
    follows the Unicode tables of the engine (with mappings that depend on
    the context and mappings that change the length), which are no part of
    the program: the mapping of such strings is a parameter, of which only
    this is used: it yields no path separator where there was none. *)
Definition lower_char (c : N) : N :=
  if (65 <=? c) && (c <=? 90) then c + 32 else c.

Definition is_ascii (s : jsstr) : bool := forallb (λ c, c <? 128) s.

Record lowering : Type := {
  lower_text : jsstr → jsstr;
  lower_text_no_slash :
    ∀ s, no_slash s = true → no_slash (lower_text s) = true
}.

Definition toLowerCase (L : lowering) (s : jsstr) : jsstr :=
  if is_ascii s then List.map lower_char s else lower_text L s.

(** A thrown value: an [Error] instance with its message, or anything
    else. *)
Inductive exn : Type :=
  | JsError (message : jsstr)
  | JsThrown.

End JS.
Export JS.

(** ** The name sanitizer *)

(** The character class [[a-zA-Z0-9 _-]]. *)
Definition name_char (c : N) : bool :=
  ((97 <=? c) && (c <=? 122))
  || ((65 <=? c) && (c <=? 90))
  || ((48 <=? c) && (c <=? 57))
  || (c =? 32) || (c =? 95) || (c =? 45).

(** [.replace(/[^a-zA-Z0-9 _-]/g, "")] *)
Definition strip_invalid (s : jsstr) : jsstr := List.filter name_char s.

(** [.replace(/\s+/g, " ")]: every maximal run of white space becomes one
    space.  [in_run] tells that the previous unit was white space. *)
Fixpoint collapse_from (in_run : bool) (s : jsstr) : jsstr :=
  match s with
  | [] => []
  | c :: r =>
      if is_whitespace c
      then (if in_run then collapse_from true r
            else SPACE :: collapse_from true r)
      else c :: collapse_from false r
  end.

Definition collapse_whitespace (s : jsstr) : jsstr := collapse_from false s.

Definition sanitizeFilename (name : jsstr) : jsstr :=
  substring0 100 (trim (collapse_whitespace (strip_invalid name))).

(** The text [sanitizeFilename] truncates. *)
Definition clean_text (name : jsstr) : jsstr :=
  trim (collapse_whitespace (strip_invalid name)).

(** What the properties of a sanitized name talk about. *)
Definition matches_name_regex (s : jsstr) : bool :=
  forallb name_char s && (length s <=? 100)%nat.

Fixpoint no_double_space (s : jsstr) : bool :=
  match s with
  | a :: (b :: _) as r => negb ((a =? SPACE) && (b =? SPACE)) && no_double_space r
  | _ => true
  end.

Definition no_leading_space (s : jsstr) : bool :=
  match s with
  | c :: _ => negb (c =? SPACE)
  | [] => true
  end.

Definition no_trailing_space (s : jsstr) : bool := no_leading_space (rev s).

(** ** Node's [path] module (POSIX flavour) *)

Module path.

(** The components of a path between its separators: ["a//b"] has the
    components ["a"], [""] and ["b"]. *)
Fixpoint split (p : jsstr) : list jsstr :=
  match p with
  | [] => [[]]
  | c :: r =>
      if c =? SLASH then [] :: split r
      else match split r with
           | seg :: segs => (c :: seg) :: segs
           | [] => [[c]]
           end
  end.

Fixpoint unsplit (segs : list jsstr) : jsstr :=
  match segs with
  | [] => []
  | [seg] => seg
  | seg :: rest => seg ++ SLASH :: unsplit rest
  end.

(** One component of [normalizeString]; [stack] holds the components kept
    so far, the last one first. *)
Definition normalize_step (allowAboveRoot : bool) (stack : list jsstr)
    (seg : jsstr) : list jsstr :=
  if bool_decide (seg = []) || bool_decide (seg = [DOT]) then stack
  else if bool_decide (seg = [DOT; DOT]) then
    match stack with
    | top :: below =>
        if bool_decide (top = [DOT; DOT])
        then (if allowAboveRoot then seg :: stack else stack)
        else below
    | [] => if allowAboveRoot then [seg] else []
    end
  else seg :: stack.

Definition normalizeString (allowAboveRoot : bool) (p : jsstr) : jsstr :=
  unsplit (rev (fold_left (normalize_step allowAboveRoot) (split p) [])).

Definition starts_with_slash (p : jsstr) : bool :=
  match p with c :: _ => c =? SLASH | [] => false end.

Definition ends_with_slash (p : jsstr) : bool := starts_with_slash (rev p).

Definition normalize (p : jsstr) : jsstr :=
  match p with
  | [] => [DOT]
  | _ =>
      let isAbsolute := starts_with_slash p in
      let trailingSeparator := ends_with_slash p in
      let q := normalizeString (negb isAbsolute) p in
      match q with
      | [] => if isAbsolute then [SLASH]
              else if trailingSeparator then [DOT; SLASH] else [DOT]
      | _ => (if isAbsolute then [SLASH] else [])
             ++ q ++ (if trailingSeparator then [SLASH] else [])
      end
  end.

(** [path.join(a, b)]: the non-empty arguments joined by ["/"], then
    normalized. *)
Definition join (a b : jsstr) : jsstr :=
  match a, b with
  | [], [] => [DOT]
  | [], _ => normalize b
  | _, [] => normalize a
  | _, _ => normalize (a ++ SLASH :: b)
  end.

Fixpoint drop_slashes (s : jsstr) : jsstr :=
  match s with
  | c :: r => if c =? SLASH then drop_slashes r else s
  | [] => []
  end.

Fixpoint until_slash (s : jsstr) : jsstr :=
  match s with
  | c :: r => if c =? SLASH then [] else c :: until_slash r
  | [] => []
  end.

Fixpoint from_slash (s : jsstr) : jsstr :=
  match s with
  | c :: r => if c =? SLASH then s else from_slash r
  | [] => []
  end.

(** [path.basename(p)]: the last component, trailing separators ignored. *)
Definition basename (p : jsstr) : jsstr :=
  rev (until_slash (drop_slashes (rev p))).

(** [path.dirname(p)]; the scan never looks at the first character. *)
Definition dirname (p : jsstr) : jsstr :=
  match p with
  | [] => [DOT]
  | c0 :: rest =>
      let hasRoot := c0 =? SLASH in
      match from_slash (drop_slashes (rev rest)) with
      | [] => if hasRoot then [SLASH] else [DOT]
      | _ :: before =>
          if hasRoot && bool_decide (before = []) then [SLASH; SLASH]
          else c0 :: rev before
      end
  end.

Fixpoint until_dot (s : jsstr) : jsstr :=
  match s with
  | c :: r => if c =? DOT then [] else c :: until_dot r
  | [] => []
  end.

Fixpoint from_dot (s : jsstr) : jsstr :=
  match s with
  | c :: r => if c =? DOT then s else from_dot r
  | [] => []
  end.

(** [path.extname(p)]: from the last dot of the last component on; empty
    when there is no dot, when the component starts with its only dot, and
    for [".."]. *)
Definition extname (p : jsstr) : jsstr :=
  let b := rev (basename p) in
  match from_dot b with
  | [] => []
  | _ :: stem =>
      if bool_decide (stem = []) then []
      else if bool_decide (stem = [DOT]) && bool_decide (until_dot b = [])
      then []
      else DOT :: rev (until_dot b)
  end.

End path.

(** ** The file system and the environment *)

Abbreviation bytes := (list Byte.byte).

(** Files by path. *)
Abbreviation FS := (gmap jsstr bytes).

(** How a computation ends: it throws or it returns. *)
Inductive result (A : Type) : Type :=
  | Throw (e : exn)
  | Return (a : A).
Arguments Throw {A} e.
Arguments Return {A} a.

(** The external [sips] process, run on two plain operands: it writes its
    output and exits with success, or it fails, possibly leaving a partial
    output behind. *)
Inductive sips_outcome : Type :=
  | SipsOk (output : bytes)
  | SipsFail (e : exn) (partial : option bytes).

(** A parsed JSON value.  Of a number the code can only see whether it is
    zero and how it prints. *)
#[warnings="-register-all"] Inductive json : Type :=
  | JNull
  | JBool (b : bool)
  | JNumber (is_zero : bool) (shown : jsstr)
  | JString (s : jsstr)
  | JArray (items : list json)
  | JObject (fields : list (jsstr * json)).

(** [response.json()] resolves to the parsed body or rejects. *)
Inductive json_outcome : Type :=
  | JsonRejects (e : exn)
  | JsonParsed (data : json).

(** The call of [fetch] throws or rejects (while its URL is built from the
    preferences, or on the network), or it resolves to a response. *)
Inductive fetch_outcome : Type :=
  | FetchRejects (e : exn)
  | FetchResponse (ok : bool) (statusText : jsstr) (body : json_outcome).

(** The [TypeError]s the engine raises in [getImageName]: a property read
    of [null], a call of something that is no function, a conversion of
    an object that has no primitive value. *)
Inductive fault : Type := ReadOfNull | NotCallable | NotPrimitive.

(** What one call of [renameImage] reads from the outside world. *)
Record task_env : Type := {
  os_tmpdir : jsstr;
  Date_now : N;
  case_mapping : lowering;
  sips : sips_outcome;
  shell : jsstr → FS → result unit * FS;
  read_failure : option exn;
  unlink_failure : option exn;
  completion : fetch_outcome;
  fault_message : fault → jsstr;
  rename_failure : option exn
}.

(** ** Computations: state, exceptions and fuel *)

(** A computation runs on a file system; [None] tells that a loop in it has
    not finished within its fuel. *)
Definition M (A : Type) : Type := FS → option (result A * FS).

#[export] Instance M_ret : MRet M := λ A (a : A) fs, Some (Return a, fs).

#[export] Instance M_bind : MBind M := λ A B (k : A → M B) (c : M A) fs,
  match c fs with
  | None => None
  | Some (Throw e, fs') => Some (Throw e, fs')
  | Some (Return a, fs') => k a fs'
  end.

(** [try { body } catch (e) { handler e }] *)
Definition try_catch {A : Type} (body : M A) (handler : exn → M A) : M A :=
  λ fs,
    match body fs with
    | Some (Throw e, fs') => handler e fs'
    | other => other
    end.

(** [try { body } finally { cleanup }]: the cleanup runs on every exit of
    the body; an exception of the cleanup replaces the body's outcome. *)
Definition try_finally {A : Type} (body : M A) (cleanup : M unit) : M A :=
  λ fs,
    match body fs with
    | None => None
    | Some (r, fs1) =>
        match cleanup fs1 with
        | None => None
        | Some (Throw e, fs2) => Some (Throw e, fs2)
        | Some (Return _, fs2) => Some (r, fs2)
        end
    end.

(** ** The [fs] calls *)

Definition enoent (syscall : string) (p : jsstr) : exn :=
  JsError (lit "ENOENT: no such file or directory, " ++ lit syscall
           ++ lit " '" ++ p ++ lit "'").

Definition enoent_rename (oldPath newPath : jsstr) : exn :=
  JsError (lit "ENOENT: no such file or directory, rename '" ++ oldPath
           ++ lit "' -> '" ++ newPath ++ lit "'").

Definition exists_in (fs : FS) (p : jsstr) : bool :=
  if fs !! p is Some _ then true else false.

Definition existsSync (p : jsstr) : M bool :=
  λ fs, Some (Return (exists_in fs p), fs).

(** [fs.unlinkSync(p)]: the file is removed, unless the system refuses
    (no permission, a directory in the way); then nothing changes. *)
Definition unlinkSync (env : task_env) (p : jsstr) : M unit :=
  λ fs,
    match fs !! p with
    | Some _ =>
        match unlink_failure env with
        | Some e => Some (Throw e, fs)
        | None => Some (Return tt, delete p fs)
        end
    | None => Some (Throw (enoent "unlink" p), fs)
    end.

Definition readFileSync (env : task_env) (p : jsstr) : M bytes :=
  λ fs,
    match read_failure env with
    | Some e => Some (Throw e, fs)
    | None =>
        match fs !! p with
        | Some data => Some (Return data, fs)
        | None => Some (Throw (enoent "open" p), fs)
        end
    end.

(** [fs.renameSync(oldPath, newPath)]: all or nothing. *)
Definition renameSync (env : task_env) (oldPath newPath : jsstr) : M unit :=
  λ fs,
    match rename_failure env with
    | Some e => Some (Throw e, fs)
    | None =>
        match fs !! oldPath with
        | Some data => Some (Return tt, <[newPath := data]> (delete oldPath fs))
        | None => Some (Throw (enoent_rename oldPath newPath), fs)
        end
    end.

(** ** The [sips] command line *)

Definition QUOTE : N := 34.

Definition IMAGE_MAX_DIMENSION : nat := 512.
Definition JPEG_QUALITY : nat := 80.

(** The command line handed to the shell. *)
Definition sips_command (imagePath tmpFile : jsstr) : jsstr :=
  lit "sips --resampleHeightWidthMax " ++ dec IMAGE_MAX_DIMENSION
  ++ lit " --setProperty format jpeg --setProperty formatOptions "
  ++ dec JPEG_QUALITY ++ lit " " ++ [QUOTE] ++ imagePath ++ [QUOTE]
  ++ lit " --out " ++ [QUOTE] ++ tmpFile ++ [QUOTE].

(** The characters the shell does not take literally between double
    quotes (the quote itself, the dollar sign, the backslash, the
    backquote), the character a command line cannot hold, and the
    surrogates, which the encoding of the command line may replace. *)
Definition shell_special (c : N) : bool :=
  (c =? 0) || (c =? 34) || (c =? 36) || (c =? 92) || (c =? 96)
  || ((55296 <=? c) && (c <=? 57343)).

(** A path that reaches [sips] as the operand it is: the shell takes every
    character of it literally, and [sips] does not take it for an option. *)
Definition plain_operand (p : jsstr) : bool :=
  forallb (λ c, negb (shell_special c)) p
  && negb (if p is c :: _ then c =? 45 else false).

(** [execSync(`sips ... "${imagePath}" --out "${tmpFile}"`)].  With two
    plain operands the command is one run of [sips], which writes nothing
    but its output file.  Otherwise the command line is not under the
    control of the program (a [$(...)] in the path is a command of its
    own): it does to the file system whatever the shell makes of it. *)
Definition execSync_sips (env : task_env) (imagePath tmpFile : jsstr) : M unit :=
  λ fs,
    if plain_operand imagePath && plain_operand tmpFile
    then
      match sips env with
      | SipsOk output => Some (Return tt, <[tmpFile := output]> fs)
      | SipsFail e (Some partial) => Some (Throw e, <[tmpFile := partial]> fs)
      | SipsFail e None => Some (Throw e, fs)
      end
    else Some (shell env (sips_command imagePath tmpFile) fs).

(** ** The image preprocessor *)

Definition scratch_path (env : task_env) : jsstr :=
  path.join (os_tmpdir env)
    (lit "raycast-lmstudio-" ++ dec_N (Date_now env) ++ lit ".jpg").

Definition preprocessImage (env : task_env) (imagePath : jsstr) : M bytes :=
  let tmpFile := scratch_path env in
  try_finally
    (_ ← execSync_sips env imagePath tmpFile;
     processed ← readFileSync env tmpFile;
     mret processed)
    (present ← existsSync tmpFile;
     if (present : bool) then unlinkSync env tmpFile else mret tt).

(** ** Reading the parsed body *)

(** [if (v)] *)
Definition truthy (v : json) : bool :=
  match v with
  | JNull => false
  | JBool b => b
  | JNumber is_zero _ => negb is_zero
  | JString s => negb (bool_decide (s = []))
  | JArray _ | JObject _ => true
  end.

(** The member [key] of a parsed object; of a key that occurs twice the
    parser keeps the last value. *)
Fixpoint own_property (key : jsstr) (fields : list (jsstr * json)) : option json :=
  match fields with
  | [] => None
  | (k, v) :: rest =>
      match own_property key rest with
      | Some later => Some later
      | None => if bool_decide (k = key) then Some v else None
      end
  end.

(** [v.key] and [v[0]] for a value other than [null], where [key] is one
    of [error], [choices], [0], [message], [content] (none of which a
    prototype provides); [None] is [undefined]. *)
Definition get (key : jsstr) (v : json) : option json :=
  match v with
  | JObject fields => own_property key fields
  | JArray items => if bool_decide (key = lit "0") then head items else None
  | JString (c :: _) => if bool_decide (key = lit "0") then Some (JString [c]) else None
  | _ => None
  end.

(** [v?.key] *)
Definition optional_get (key : jsstr) (v : option json) : option json :=
  match v with
  | None | Some JNull => None
  | Some value => get key value
  end.

(** The conversion to a string of a template literal; [None] is the
    [TypeError] for an object whose own [toString] member hides the
    inherited method. *)
Fixpoint ToString (v : json) : option jsstr :=
  match v with
  | JNull => Some (lit "null")
  | JBool b => Some (if b then lit "true" else lit "false")
  | JNumber _ shown => Some shown
  | JString s => Some s
  | JArray items =>
      (fix join (l : list json) : option jsstr :=
         match l with
         | [] => Some []
         | x :: rest =>
             match (match x with JNull => Some [] | _ => ToString x end) with
             | None => None
             | Some first =>
                 match rest with
                 | [] => Some first
                 | _ :: _ =>
                     match join rest with
                     | None => None
                     | Some others => Some (first ++ lit "," ++ others)
                     end
                 end
             end
         end) items
  | JObject fields =>
      match own_property (lit "toString") fields with
      | Some _ => None
      | None => Some (lit "[object Object]")
      end
  end.

(** [`${v}`] for a value that may be [undefined]. *)
Definition template (v : option json) : option jsstr :=
  match v with
  | None => Some (lit "undefined")
  | Some value => ToString value
  end.

(** ** The vision API client *)

Definition TypeError (env : task_env) (f : fault) : exn :=
  JsError (fault_message env f).

(** [data.choices?.[0]?.message?.content] *)
Definition first_content (data : json) : option json :=
  optional_get (lit "content")
    (optional_get (lit "message")
       (optional_get (lit "0") (get (lit "choices") data))).

(** [data.choices?.[0]?.message?.content?.trim()]: [undefined] without a
    content, the trimmed text of a string, and a [TypeError] for any other
    content, which has no [trim] to call. *)
Definition suggested_name (env : task_env) (data : json) : result (option jsstr) :=
  match first_content data with
  | None | Some JNull => Return None
  | Some (JString text) => Return (Some (trim text))
  | Some _ => Throw (TypeError env NotCallable)
  end.

(** [data.error], when it is truthy. *)
Definition reported_error (data : json) : option json :=
  match get (lit "error") data with
  | Some err => if truthy err then Some err else None
  | None => None
  end.

(** The request of [getImageName] and the reading of its response (from
    [fetch] to the end of the function): the spec's [describeImage]. *)
Definition describeImage (env : task_env) : result jsstr :=
  match completion env with
  | FetchRejects e => Throw e
  | FetchResponse ok statusText body =>
      if negb ok
      then Throw (JsError (lit "API request failed: " ++ statusText))
      else
        match body with
        | JsonRejects e => Throw e
        | JsonParsed JNull => Throw (TypeError env ReadOfNull)
        | JsonParsed data =>
            match reported_error data with
            | Some err =>
                match template (get (lit "message") err) with
                | Some text => Throw (JsError (lit "LM Studio error: " ++ text))
                | None => Throw (TypeError env NotPrimitive)
                end
            | None =>
                match suggested_name env data with
                | Throw e => Throw e
                | Return None | Return (Some []) =>
                    Throw (JsError (lit "No name suggestion returned"))
                | Return (Some suggestedName) => Return suggestedName
                end
            end
        end
  end.

Definition lift_result {A : Type} (r : result A) : M A := λ fs, Some (r, fs).

Definition getImageName (env : task_env) (imagePath model : jsstr) : M jsstr :=
  processedBuffer ← preprocessImage env imagePath;
  lift_result (describeImage env).

(** ** The collision resolver *)

(** The loop of [getUniqueFilename] at [candidate] and [counter]. *)
Fixpoint getUniqueFilename_loop (fuel : nat) (existing : jsstr → bool)
    (dir baseName ext candidate : jsstr) (counter : nat) : option jsstr :=
  match fuel with
  | O => None
  | S fuel' =>
      if existing candidate
      then getUniqueFilename_loop fuel' existing dir baseName ext
             (path.join dir (baseName ++ lit "_" ++ dec counter ++ ext))
             (S counter)
      else Some candidate
  end.

Definition getUniqueFilename_on (fuel : nat) (existing : jsstr → bool)
    (dir baseName ext : jsstr) : option jsstr :=
  getUniqueFilename_loop fuel existing dir baseName ext
    (path.join dir (baseName ++ ext)) 1.

Definition getUniqueFilename (fuel : nat) (fs : FS)
    (dir baseName ext : jsstr) : option jsstr :=
  getUniqueFilename_on fuel (exists_in fs) dir baseName ext.

(** The paths the loop probes: number 0 is [dir/baseName.ext], number
    [k ≥ 1] is [dir/baseName_k.ext]. *)
Definition candidate (dir baseName ext : jsstr) (k : nat) : jsstr :=
  match k with
  | O => path.join dir (baseName ++ ext)
  | S _ => path.join dir (baseName ++ lit "_" ++ dec k ++ ext)
  end.

(** ** The rename orchestrator *)

Module RenameResult.
Record t : Type := {
  success : bool;
  oldName : jsstr;
  newName : option jsstr;
  error : option jsstr
}.
End RenameResult.

(** [error instanceof Error ? error.message : "Unknown error"] *)
Definition error_text (e : exn) : jsstr :=
  match e with
  | JsError message => message
  | JsThrown => lit "Unknown error"
  end.

(** [fuel] is what the loop of [getUniqueFilename] may probe beyond one
    path per file there is: the loop is run on [fuel + size fs] probes. *)
Definition renameImage (fuel : nat) (env : task_env)
    (imagePath model : jsstr) : M RenameResult.t :=
  let oldName := path.basename imagePath in
  let dir := path.dirname imagePath in
  let ext := toLowerCase (case_mapping env) (path.extname imagePath) in
  try_catch
    (suggestedName ← getImageName env imagePath model;
     let cleanName := sanitizeFilename suggestedName in
     if bool_decide (cleanName = [])
     then mret (RenameResult.Build_t false oldName None
                  (Some (lit "Empty name returned")))
     else
       λ fs,
         match getUniqueFilename (fuel + size fs) fs dir cleanName ext with
         | None => None
         | Some newPath =>
             let newName := path.basename newPath in
             if bool_decide (oldName = newName)
             then Some (Return (RenameResult.Build_t true oldName
                                  (Some newName) (Some (lit "Name unchanged"))),
                        fs)
             else
               (_ ← renameSync env imagePath newPath;
                mret (RenameResult.Build_t true oldName (Some newName) None)) fs
         end)
    (λ e, mret (RenameResult.Build_t false oldName None (Some (error_text e)))).

(** ** The reachability probe *)

Record Preferences : Type := { lmstudioUrl : jsstr }.

(** What the network does with a request: a response or a failure after
    some milliseconds, or nothing at all. *)
Inductive net_behaviour : Type :=
  | Responds (after_ms : N) (ok : bool)
  | Fails (after_ms : N) (e : exn)
  | Hangs.

Record probe_env : Type := {
  getPreferenceValues : result Preferences;
  network : jsstr → net_behaviour
}.

(** [prefs.lmstudioUrl || "http://localhost:1234"] *)
Definition getBaseUrl (env : probe_env) : result jsstr :=
  match getPreferenceValues env with
  | Throw e => Throw e
  | Return prefs =>
      Return (if bool_decide (lmstudioUrl prefs = [])
              then lit "http://localhost:1234" else lmstudioUrl prefs)
  end.

Definition timeout_error : exn :=
  JsError (lit "The operation was aborted due to timeout").

(** [fetch(url, { signal: AbortSignal.timeout(ms) })], reduced to
    [response.ok]: what happens before the timer fires is delivered,
    anything later is cut off by the abort. *)
Definition fetch_ok_within (timeout_ms : N) (what : net_behaviour) : result bool :=
  match what with
  | Responds t ok => if t <? timeout_ms then Return ok else Throw timeout_error
  | Fails t e => if t <? timeout_ms then Throw e else Throw timeout_error
  | Hangs => Throw timeout_error
  end.

Definition PROBE_TIMEOUT_MS : N := 5000.

Definition checkServerConnection (env : probe_env) : result bool :=
  let body :=
    match getBaseUrl env with
    | Throw e => Throw e
    | Return base =>
        fetch_ok_within PROBE_TIMEOUT_MS (network env (base ++ lit "/v1/models"))
    end in
  match body with
  | Throw _ => Return false
  | Return ok => Return ok
  end.

(** ** The batch runner *)

Module ImageFile.
Record t : Type := { path : jsstr; name : jsstr }.
End ImageFile.

Module Status.
Inductive t : Type := pending | processing | success | error | skipped.
End Status.

Module ProcessingResult.
Record t : Type := {
  oldName : jsstr;
  newName : option jsstr;
  status : Status.t;
  error : option jsstr
}.
End ProcessingResult.

(** The entry [processImages] stores for a finished task. *)
Definition display (result : RenameResult.t) : ProcessingResult.t :=
  if RenameResult.success result then
    if bool_decide (RenameResult.error result = Some (lit "Name unchanged"))
    then ProcessingResult.Build_t (RenameResult.oldName result)
           (RenameResult.newName result) Status.skipped
           (Some (lit "Name unchanged"))
    else ProcessingResult.Build_t (RenameResult.oldName result)
           (RenameResult.newName result) Status.success None
  else ProcessingResult.Build_t (RenameResult.oldName result) None
         Status.error (RenameResult.error result).

(** [{ ...updated[i], status: "processing" }] *)
Definition mark_processing (r : ProcessingResult.t) : ProcessingResult.t :=
  ProcessingResult.Build_t (ProcessingResult.oldName r)
    (ProcessingResult.newName r) Status.processing (ProcessingResult.error r).

(** The state of the loop: the [results] array of the view, the local
    [successCount], and the values [result] has taken so far, oldest
    first. *)
Record batch : Type := {
  results : list ProcessingResult.t;
  successCount : nat;
  outcomes : list RenameResult.t
}.

Definition initial_results (images : list ImageFile.t) : list ProcessingResult.t :=
  List.map (λ img, ProcessingResult.Build_t (ImageFile.name img) None
                     Status.pending None) images.

(** The [for] loop at index [i]; [remaining] are [images[i]], [images[i+1]],
    and so on.  Every index written is below the length of [results], so
    the array never grows. *)
Fixpoint processImages_loop (fuel : nat) (envs : nat → task_env)
    (model : jsstr) (remaining : list ImageFile.t) (i : nat) (st : batch)
    : M batch :=
  match remaining with
  | [] => mret st
  | image :: rest =>
      let processing := alter mark_processing i (results st) in
      result ← renameImage fuel (envs i) (ImageFile.path image) model;
      let count := if RenameResult.success result
                   then S (successCount st) else successCount st in
      let updated := <[i := display result]> processing in
      processImages_loop fuel envs model rest (S i)
        {| results := updated; successCount := count;
           outcomes := outcomes st ++ [result] |}
  end.

Definition processImages (fuel : nat) (envs : nat → task_env)
    (model : jsstr) (images : list ImageFile.t) : M batch :=
  processImages_loop fuel envs model images 0
    {| results := initial_results images; successCount := 0; outcomes := [] |}.

(** The final tally shown in the completion toast. *)
Definition tally (images : list ImageFile.t) (st : batch) : nat * nat :=
  (successCount st, length images).

Definition toast_message (images : list ImageFile.t) (st : batch) : jsstr :=
  lit "Renamed " ++ dec (successCount st) ++ lit " of "
  ++ dec (length images) ++ lit " images".

(** ** Supported images *)

Definition imageExtensions : list jsstr :=
  [ lit ".jpg"; lit ".jpeg"; lit ".png"; lit ".gif"; lit ".webp"; lit ".bmp";
    lit ".tiff" ].

Definition isImageFile (L : lowering) (filePath : jsstr) : bool :=
  let ext := toLowerCase L (path.extname filePath) in
  bool_decide (ext ∈ imageExtensions).

(** The object literal of [getMimeType].  Its keys are looked up with an
    extension, which is empty or starts with a dot, so no inherited
    property of the object is ever hit. *)
Definition mimeTypes : gmap jsstr jsstr :=
  list_to_map
    [ (lit ".jpg", lit "image/jpeg"); (lit ".jpeg", lit "image/jpeg");
      (lit ".png", lit "image/png"); (lit ".gif", lit "image/gif");
      (lit ".webp", lit "image/webp"); (lit ".bmp", lit "image/bmp");
      (lit ".tiff", lit "image/tiff") ].

(** [mimeTypes[ext] || "image/jpeg"] *)
Definition getMimeType (L : lowering) (filePath : jsstr) : jsstr :=
  let ext := toLowerCase L (path.extname filePath) in
  match mimeTypes !! ext with
  | Some (c :: r) => c :: r
  | _ => lit "image/jpeg"
  end.

(** ** Listing the models *)

Module Model.
Record t : Type := { id : jsstr; object : jsstr; owned_by : jsstr }.
End Model.



Record FinderItem : Type := { item_path : jsstr }.



(** ** The command: start-up *)





(** [item.path.split("/").pop() || item.path] *)
Definition file_name (p : jsstr) : jsstr :=
  match List.last (path.split p) [] with
  | [] => p
  | c :: r => c :: r
  end.

(** The [flatMap] of [init]: the supported images among the Finder items,
    in their order. *)
Definition selected_images (L : lowering) (items : list FinderItem)
    : list ImageFile.t :=
  flat_map
    (λ item,
       if isImageFile L (item_path item)
       then [ {| ImageFile.path := item_path item;
                 ImageFile.name := file_name (item_path item) |} ]
       else [])
    items.

Module CommandState.
Record t : Type := {
  isLoading : bool;
  error : option jsstr;
  models : list Model.t;
  images : list ImageFile.t
}.
End CommandState.






(** ** The processing view *)

#[export] Instance Status_eq_dec : EqDecision Status.t.
Proof. solve_decision. Defined.

(** [r.status !== "pending" && r.status !== "processing"] *)
Definition completed (r : ProcessingResult.t) : bool :=
  negb (bool_decide (ProcessingResult.status r = Status.pending))
  && negb (bool_decide (ProcessingResult.status r = Status.processing)).

Definition completedCount (results : list ProcessingResult.t) : nat :=
  length (List.filter completed results).

(** [`Processing ${completedCount}/${images.length}`] *)
Definition navigationTitle (images : list ImageFile.t)
    (results : list ProcessingResult.t) : jsstr :=
  lit "Processing " ++ dec (completedCount results) ++ lit "/"
  ++ dec (length images).

(** A row that counts as done in the toast: shown as renamed or as
    skipped. *)
Definition shown_as_done (r : ProcessingResult.t) : bool :=
  bool_decide (ProcessingResult.status r = Status.success)
  || bool_decide (ProcessingResult.status r = Status.skipped).



(** A case mapping that leaves every string outside ASCII as it is (the
    paths of the sample worlds are ASCII). *)
Definition same_text : lowering :=
  {| lower_text := λ s, s; lower_text_no_slash := λ s H, H |}.



(** A string without a dot. *)
Definition no_dot (s : jsstr) : bool := forallb (λ c, negb (c =? DOT)) s.

(** An extension as [path.extname] returns it: empty, or a dot followed by
    characters other than dots. *)
Definition ext_shape (ext : jsstr) : Prop :=
  ext = [] ∨ ∃ e, ext = DOT :: e ∧ no_dot e = true.

(** The file name [getUniqueFilename] asks for at probe number [k]. *)
Definition probe_name (baseName ext : jsstr) (k : nat) : jsstr :=
  match k with
  | O => baseName ++ ext
  | S _ => baseName ++ lit "_" ++ dec k ++ ext
  end.

(** [mimeTypes[ext]] for a supported extension, spelled out. *)
Definition mime_of_extension (ext : jsstr) : jsstr :=
  lit "image/"
  ++ (if bool_decide (ext = lit ".jpg") then lit "jpeg" else drop 1 ext).

(** A clean name: what [sanitizeFilename] leaves as it is. *)
Definition clean_name (s : jsstr) : Prop :=
  matches_name_regex s = true ∧ no_double_space s = true
  ∧ no_leading_space s = true ∧ no_trailing_space s = true.

(** ** Vocabulary of the properties *)

(** A single path component that [path.normalize] keeps as it is: not
    empty, without a separator, and neither ["."] nor [".."]. *)
Definition simple_segment (seg : jsstr) : Prop :=
  no_slash seg = true ∧ seg ≠ [] ∧ seg ≠ [DOT] ∧ seg ≠ [DOT; DOT].

(** Empty, or ending in a separator. *)
Definition slash_terminated (p : jsstr) : Prop :=
  p = [] ∨ ∃ q, p = q ++ [SLASH].

(** The file name [getUniqueFilename] builds at [counter = k]. *)
Definition segment (baseName ext : jsstr) (k : nat) : jsstr :=
  baseName ++ lit "_" ++ dec k ++ ext.

(** A directory with [cat.jpg] and [cat_1.jpg]. *)
Definition two_cats : FS :=
  {[ lit "/d/cat.jpg" := []; lit "/d/cat_1.jpg" := [] ]}.

(** The file system that holds exactly the first [n] candidates. *)
Definition busy_prefix (dir baseName ext : jsstr) (n : nat) : FS :=
  list_to_map ((λ i, (candidate dir baseName ext i, [])) <$> seq 0 n).

(** The [try] block of [preprocessImage]. *)
Definition convert (env : task_env) (imagePath : jsstr) : M bytes :=
  _ ← execSync_sips env imagePath (scratch_path env);
  processed ← readFileSync env (scratch_path env);
  mret processed.

(** The [finally] block of [preprocessImage], run on the outcome [r] and
    the file system [fs] of the [try] block. *)
Definition cleanup (env : task_env) (r : result bytes) (fs : FS)
    : result bytes * FS :=
  if exists_in fs (scratch_path env)
  then
    match unlink_failure env with
    | Some e => (Throw e, fs)
    | None => (r, delete (scratch_path env) fs)
    end
  else (r, fs).

(** How the [try] block of [preprocessImage] ends on plain operands, by
    what [sips] and the read do. *)
Definition preprocess_outcome (env : task_env) : result bytes :=
  match sips env with
  | SipsFail e _ => Throw e
  | SipsOk output =>
      match read_failure env with
      | Some e => Throw e
      | None => Return output
      end
  end.

(** Both operands of the [sips] command of a task are plain. *)
Definition plain_operands (env : task_env) (imagePath : jsstr) : Prop :=
  plain_operand imagePath = true ∧ plain_operand (scratch_path env) = true.

(** The failures of the request part of [getImageName], each with the value
    that is thrown. *)
Inductive describe_failure (env : task_env) : exn → Prop :=
  | fail_fetch e :
      completion env = FetchRejects e →
      describe_failure env e
  | fail_status statusText body :
      completion env = FetchResponse false statusText body →
      describe_failure env (JsError (lit "API request failed: " ++ statusText))
  | fail_body statusText e :
      completion env = FetchResponse true statusText (JsonRejects e) →
      describe_failure env e
  | fail_null statusText :
      completion env = FetchResponse true statusText (JsonParsed JNull) →
      describe_failure env (TypeError env ReadOfNull)
  | fail_api statusText data err text :
      completion env = FetchResponse true statusText (JsonParsed data) →
      data ≠ JNull →
      get (lit "error") data = Some err → truthy err = true →
      template (get (lit "message") err) = Some text →
      describe_failure env (JsError (lit "LM Studio error: " ++ text))
  | fail_api_message statusText data err :
      completion env = FetchResponse true statusText (JsonParsed data) →
      data ≠ JNull →
      get (lit "error") data = Some err → truthy err = true →
      template (get (lit "message") err) = None →
      describe_failure env (TypeError env NotPrimitive)
  | fail_content statusText data value :
      completion env = FetchResponse true statusText (JsonParsed data) →
      data ≠ JNull →
      reported_error data = None →
      first_content data = Some value →
      value ≠ JNull → (∀ text, value ≠ JString text) →
      describe_failure env (TypeError env NotCallable)
  | fail_empty statusText data :
      completion env = FetchResponse true statusText (JsonParsed data) →
      data ≠ JNull →
      reported_error data = None →
      (first_content data = None ∨ first_content data = Some JNull
       ∨ ∃ text, first_content data = Some (JString text) ∧ trim text = []) →
      describe_failure env (JsError (lit "No name suggestion returned")).

(** The three failures the spec lists for [describeImage]: the HTTP call
    fails or returns non-2xx, the parsed body has an error field, the first
    choice has no usable text. *)
Inductive listed_failure : fetch_outcome → Prop :=
  | listed_fetch e : listed_failure (FetchRejects e)
  | listed_status statusText body :
      listed_failure (FetchResponse false statusText body)
  | listed_api ok statusText data err :
      get (lit "error") data = Some err →
      listed_failure (FetchResponse ok statusText (JsonParsed data))
  | listed_empty ok statusText data :
      (first_content data = None ∨ first_content data = Some JNull
       ∨ ∃ text, first_content data = Some (JString text) ∧ trim text = []) →
      listed_failure (FetchResponse ok statusText (JsonParsed data)).

(** A 200 response whose body is not JSON. *)
Definition html_reply : fetch_outcome :=
  FetchResponse true (lit "OK")
    (JsonRejects (JsError (lit "Unexpected token < in JSON at position 0"))).

(** A completion with the given content in its first choice. *)
Definition completion_of (value : json) : fetch_outcome :=
  FetchResponse true (lit "OK")
    (JsonParsed
       (JObject
          [ (lit "id", JString (lit "chatcmpl-1"));
            (lit "choices",
             JArray [ JObject [ (lit "index", JNumber true (lit "0"));
                                (lit "message",
                                 JObject [ (lit "role", JString (lit "assistant"));
                                           (lit "content", value) ]) ] ]) ])).

(** A well-formed completion with the given text. *)
Definition completion_with (text : jsstr) : fetch_outcome :=
  completion_of (JString text).

(** The three shapes of a [RenameResult]. *)
Definition failed (oldName message : jsstr) : RenameResult.t :=
  RenameResult.Build_t false oldName None (Some message).

Definition unchanged (oldName : jsstr) : RenameResult.t :=
  RenameResult.Build_t true oldName (Some oldName) (Some (lit "Name unchanged")).

Definition renamed (oldName newName : jsstr) : RenameResult.t :=
  RenameResult.Build_t true oldName (Some newName) None.

Definition is_unchanged (r : RenameResult.t) : bool :=
  RenameResult.success r
  && bool_decide (RenameResult.error r = Some (lit "Name unchanged")).

Definition is_renamed (r : RenameResult.t) : bool :=
  RenameResult.success r && bool_decide (RenameResult.error r = None).

(** What [renameImage] does once [preprocessImage] has ended with [r] on
    the file system [fs1]. *)
Definition rename_after (fuel : nat) (env : task_env) (imagePath : jsstr)
    (r : result bytes) (fs1 : FS) : option (result RenameResult.t * FS) :=
  let oldName := path.basename imagePath in
  let dir := path.dirname imagePath in
  let ext := toLowerCase (case_mapping env) (path.extname imagePath) in
  let fail := λ e, Some (Return (failed oldName (error_text e)), fs1) in
  match r with
  | Throw e => fail e
  | Return _ =>
      match describeImage env with
      | Throw e => fail e
      | Return suggestedName =>
          let cleanName := sanitizeFilename suggestedName in
          if bool_decide (cleanName = [])
          then Some (Return (failed oldName (lit "Empty name returned")), fs1)
          else
            match getUniqueFilename (fuel + size fs1) fs1 dir cleanName ext with
            | None => None
            | Some newPath =>
                let newName := path.basename newPath in
                if bool_decide (oldName = newName)
                then Some (Return (unchanged oldName), fs1)
                else
                  match rename_failure env with
                  | Some e => fail e
                  | None =>
                      match fs1 !! imagePath with
                      | Some data =>
                          Some (Return (renamed oldName newName),
                                <[newPath := data]> (delete imagePath fs1))
                      | None => fail (enoent_rename imagePath newPath)
                      end
                  end
            end
      end
  end.

(** Sample worlds.  A directory with one image, a model that answers
    ["cat"], and a model server that cannot be reached. *)
Definition jpeg : bytes := [Byte.xff; Byte.xd8; Byte.xff; Byte.xe0].

Definition cat_fs : FS := {[ lit "/d/cat.jpg" := jpeg ]}.

(** The wording of the [TypeError]s of Node's engine. *)
Definition node_message (f : fault) : jsstr :=
  match f with
  | ReadOfNull => lit "Cannot read properties of null (reading 'error')"
  | NotCallable => lit "data.choices?.[0]?.message?.content?.trim is not a function"
  | NotPrimitive => lit "Cannot convert object to primitive value"
  end.

(** A shell on which every unprotected command line fails at once. *)
Definition command_fails (command : jsstr) (fs : FS) : result unit * FS :=
  (Throw (JsError (lit "Command failed: " ++ command)), fs).

Definition cat_env : task_env :=
  {| os_tmpdir := lit "/tmp";
     Date_now := 1700000000000;
     case_mapping := same_text;
     sips := SipsOk [Byte.xff; Byte.xd8];
     shell := command_fails;
     read_failure := None;
     unlink_failure := None;
     completion := completion_with (lit "cat");
     fault_message := node_message;
     rename_failure := None |}.

(** [env] with another clock and another answer of the model server. *)
Definition at_time (now : N) (reply : fetch_outcome) (env : task_env) : task_env :=
  {| os_tmpdir := os_tmpdir env;
     Date_now := now;
     case_mapping := case_mapping env;
     sips := sips env;
     shell := shell env;
     read_failure := read_failure env;
     unlink_failure := unlink_failure env;
     completion := reply;
     fault_message := fault_message env;
     rename_failure := rename_failure env |}.

(** [env] with another shell. *)
Definition with_shell (sh : jsstr → FS → result unit * FS) (env : task_env)
    : task_env :=
  {| os_tmpdir := os_tmpdir env;
     Date_now := Date_now env;
     case_mapping := case_mapping env;
     sips := sips env;
     shell := sh;
     read_failure := read_failure env;
     unlink_failure := unlink_failure env;
     completion := completion env;
     fault_message := fault_message env;
     rename_failure := rename_failure env |}.

Definition offline_env : task_env :=
  at_time 1700000000001 (FetchRejects (JsError (lit "fetch failed"))) cat_env.

(** A server that answers 200 with a page that is not JSON. *)
Definition html_env : task_env := at_time 1700000000002 html_reply cat_env.

(** A server whose first choice carries a number where the text should
    be. *)
Definition number_env : task_env :=
  at_time 1700000000003 (completion_of (JNumber false (lit "42"))) cat_env.

(** The system refuses to remove the scratch file. *)
Definition locked_env : task_env :=
  {| os_tmpdir := lit "/tmp";
     Date_now := 1700000000004;
     case_mapping := same_text;
     sips := SipsOk [Byte.xff; Byte.xd8];
     shell := command_fails;
     read_failure := None;
     unlink_failure :=
       Some (JsError (lit "EPERM: operation not permitted, unlink '/tmp/raycast-lmstudio-1700000000004.jpg'"));
     completion := completion_with (lit "cat");
     fault_message := node_message;
     rename_failure := None |}.




(** An image whose path holds a command substitution, and a shell that
    runs it: the substituted command removes [b.png] from the home
    directory, after which [sips] does not find its operand and the
    command fails. *)
Definition injected_path : jsstr := lit "/Users/me/$(rm -f ~/b.png).png".

Definition injected_fs : FS :=
  {[ injected_path := jpeg; lit "/Users/me/b.png" := jpeg ]}.

Definition injected_env : task_env :=
  with_shell
    (λ command fs,
       (Throw (JsError (lit "Command failed: " ++ command)),
        delete (lit "/Users/me/b.png") fs))
    (at_time 1700000000005 (completion_with (lit "cat")) cat_env).




(** The state of the batch loop after the task at index [i] ended with
    [result]. *)
Definition next_state (i : nat) (st : batch) (result : RenameResult.t) : batch :=
  {| results := <[i := display result]> (alter mark_processing i (results st));
     successCount := if RenameResult.success result
                     then S (successCount st) else successCount st;
     outcomes := outcomes st ++ [result] |}.

Definition initial_state (images : list ImageFile.t) : batch :=
  {| results := initial_results images; successCount := 0; outcomes := [] |}.


(** A batch of two images; the model server is down for the first task and
    answers ["cat"] for the second. *)
Definition two_images : list ImageFile.t :=
  [ {| ImageFile.path := lit "/d/a.png"; ImageFile.name := lit "a.png" |};
    {| ImageFile.path := lit "/d/b.png"; ImageFile.name := lit "b.png" |} ].

Definition two_images_fs : FS :=
  {[ lit "/d/a.png" := jpeg; lit "/d/b.png" := jpeg ]}.

Definition down_then_up (i : nat) : task_env :=
  match i with
  | O => offline_env
  | S _ => cat_env
  end.






(** Every outcome has one of the three shapes. *)
Definition outcome_shape (r : RenameResult.t) : Prop :=
  (∃ message, r = failed (RenameResult.oldName r) message)
  ∨ r = unchanged (RenameResult.oldName r)
  ∨ (∃ newName, r = renamed (RenameResult.oldName r) newName).

(** A suggestion whose clean text is 101 units long with a space as its
    100th unit: ninety-nine times ["a"], then [" b"]. *)
Definition long_suggestion : jsstr := repeat 97 99 ++ lit " b".

(** * Properties *)

(** ** Strings *)

Section StringFacts.

Lemma not_whitespace_not_space (c : N) :
  is_whitespace c = false → (c =? SPACE) = false.
Proof.
  intros Hws. destruct (N.eqb_spec c SPACE) as [->|]; [|reflexivity].
  vm_compute in Hws. discriminate.
Qed.

Lemma trimStart_suffix (s : jsstr) : ∃ j, trimStart s = drop j s.
Proof.
  induction s as [|c r [j IH]]; [by exists O|].
  simpl. destruct (is_whitespace c); [by exists (S j) | by exists O].
Qed.

Lemma trimEnd_prefix (s : jsstr) : ∃ k, trimEnd s = take k s.
Proof.
  unfold trimEnd. destruct (trimStart_suffix (rev s)) as [j ->].
  exists (length s - j)%nat. by rewrite skipn_rev, rev_involutive.
Qed.

Lemma trimStart_head (s : jsstr) :
  match trimStart s with c :: _ => is_whitespace c = false | [] => True end.
Proof.
  induction s as [|c r IH]; [done|]. simpl.
  by destruct (is_whitespace c) eqn:Hc.
Qed.

Lemma trimStart_snoc (s : jsstr) (c : N) :
  is_whitespace c = false → trimStart (s ++ [c]) = trimStart s ++ [c].
Proof.
  intros Hc. induction s as [|d r IH]; simpl; [by rewrite Hc|].
  by destruct (is_whitespace d).
Qed.

Lemma trimEnd_cons (c : N) (s : jsstr) :
  is_whitespace c = false → trimEnd (c :: s) = c :: trimEnd s.
Proof.
  intros Hc. unfold trimEnd. simpl.
  by rewrite trimStart_snoc, rev_app_distr.
Qed.

Lemma trim_head (s : jsstr) :
  match trim s with c :: _ => is_whitespace c = false | [] => True end.
Proof.
  unfold trim. pose proof (trimStart_head s) as H.
  destruct (trimStart s) as [|c r]; [done|]. by rewrite trimEnd_cons.
Qed.

Lemma trim_rev_head (s : jsstr) :
  match rev (trim s) with c :: _ => is_whitespace c = false | [] => True end.
Proof.
  unfold trim, trimEnd. rewrite rev_involutive. apply trimStart_head.
Qed.

Lemma trim_infix (s : jsstr) : ∃ j k, trim s = take k (drop j s).
Proof.
  unfold trim. destruct (trimStart_suffix s) as [j ->].
  destruct (trimEnd_prefix (drop j s)) as [k ->]. by exists j, k.
Qed.

End StringFacts.

(** ** The name sanitizer *)

Section Sanitizer.

Lemma strip_invalid_chars (s : jsstr) : Forall (λ c, name_char c = true) (strip_invalid s).
Proof.
  unfold strip_invalid. induction s as [|c r IH]; simpl; [constructor|].
  destruct (name_char c) eqn:Hc; [by constructor | done].
Qed.

Lemma collapse_chars (b : bool) (s : jsstr) :
  Forall (λ c, name_char c = true) s →
  Forall (λ c, name_char c = true) (collapse_from b s).
Proof.
  intros Hs. revert b. induction Hs as [|c r Hc _ IH]; intros b; simpl; [constructor|].
  destruct (is_whitespace c), b; try constructor; auto.
Qed.

Lemma no_double_space_cons (a b : N) (r : jsstr) :
  no_double_space (a :: b :: r)
  = negb ((a =? SPACE) && (b =? SPACE)) && no_double_space (b :: r).
Proof. reflexivity. Qed.

Lemma collapse_spacing (s : jsstr) :
  ∀ b, no_double_space (collapse_from b s) = true
       ∧ (b = true → no_leading_space (collapse_from b s) = true).
Proof.
  induction s as [|c r IH]; intros b; cbn [collapse_from]; [done|].
  destruct (is_whitespace c) eqn:Hws.
  - destruct b.
    + apply (IH true).
    + destruct (IH true) as [Hnd Hlead]. split; [|done].
      specialize (Hlead eq_refl).
      destruct (collapse_from true r) as [|x xs]; [done|].
      unfold no_leading_space in Hlead. rewrite no_double_space_cons, Hnd.
      apply negb_true_iff in Hlead. by rewrite Hlead, andb_false_r.
  - destruct (IH false) as [Hnd _].
    pose proof (not_whitespace_not_space c Hws) as Hc'. split.
    + destruct (collapse_from false r) as [|x xs]; [done|].
      by rewrite no_double_space_cons, Hc', Hnd.
    + intros _. unfold no_leading_space. by rewrite Hc'.
Qed.

Lemma no_double_space_tail (c : N) (s : jsstr) :
  no_double_space (c :: s) = true → no_double_space s = true.
Proof.
  destruct s as [|d r]; [done|]. rewrite no_double_space_cons.
  by intros [_ ?]%andb_true_iff.
Qed.

Lemma no_double_space_drop (j : nat) (s : jsstr) :
  no_double_space s = true → no_double_space (drop j s) = true.
Proof.
  revert s. induction j as [|j IH]; intros s Hs; [done|].
  destruct s as [|c r]; [done|]. simpl. eauto using no_double_space_tail.
Qed.

Lemma no_double_space_take (k : nat) (s : jsstr) :
  no_double_space s = true → no_double_space (take k s) = true.
Proof.
  revert s. induction k as [|k IH]; intros s Hs; [done|].
  destruct s as [|c r]; [done|].
  pose proof (IH r (no_double_space_tail _ _ Hs)) as Hr.
  destruct r as [|d r']; [by destruct k|].
  destruct k as [|k']; [done|].
  rewrite no_double_space_cons in Hs. apply andb_true_iff in Hs as [Hcd _].
  change (take (S (S k')) (c :: d :: r')) with (c :: d :: take k' r').
  change (take (S k') (d :: r')) with (d :: take k' r') in Hr.
  by rewrite no_double_space_cons, Hcd, Hr.
Qed.

Lemma no_leading_space_take (k : nat) (s : jsstr) :
  no_leading_space s = true → no_leading_space (take k s) = true.
Proof. by destruct k, s. Qed.

Lemma clean_text_chars (name : jsstr) : Forall (λ c, name_char c = true) (clean_text name).
Proof.
  unfold clean_text. destruct (trim_infix (collapse_whitespace (strip_invalid name))) as (j & k & ->).
  apply Forall_take, Forall_drop, collapse_chars, strip_invalid_chars.
Qed.

Lemma clean_text_spacing (name : jsstr) : no_double_space (clean_text name) = true.
Proof.
  unfold clean_text. destruct (trim_infix (collapse_whitespace (strip_invalid name))) as (j & k & ->).
  apply no_double_space_take, no_double_space_drop.
  apply (collapse_spacing _ false).
Qed.

Lemma clean_text_leading (name : jsstr) : no_leading_space (clean_text name) = true.
Proof.
  unfold clean_text. pose proof (trim_head (collapse_whitespace (strip_invalid name))) as H.
  destruct (trim _) as [|c r]; [done|]. simpl.
  by rewrite (not_whitespace_not_space c H).
Qed.

Lemma clean_text_trailing (name : jsstr) : no_trailing_space (clean_text name) = true.
Proof.
  unfold clean_text, no_trailing_space.
  pose proof (trim_rev_head (collapse_whitespace (strip_invalid name))) as H.
  destruct (rev (trim _)) as [|c r]; [done|]. simpl.
  by rewrite (not_whitespace_not_space c H).
Qed.

Lemma no_trailing_space_last (s : jsstr) :
  no_trailing_space s = match last s with Some c => negb (c =? SPACE) | None => true end.
Proof.
  unfold no_trailing_space. induction s as [|c r _] using rev_ind; [done|].
  by rewrite rev_app_distr, last_snoc.
Qed.

Lemma sanitizeFilename_chars (name : jsstr) :
  Forall (λ c, name_char c = true) (sanitizeFilename name).
Proof. apply Forall_take, clean_text_chars. Qed.

Lemma sanitizeFilename_length (name : jsstr) : (length (sanitizeFilename name) ≤ 100)%nat.
Proof. unfold sanitizeFilename, substring0. rewrite length_take. lia. Qed.

End Sanitizer.

Section SanitizerShape.

Lemma forallb_name_char (s : jsstr) :
  Forall (λ c, name_char c = true) s → forallb name_char s = true.
Proof. induction 1 as [|c r Hc _ IH]; simpl; [done|]. by rewrite Hc, IH. Qed.

Lemma truncated_trailing_space (t : jsstr) :
  no_trailing_space t = true →
  no_trailing_space (take 100 t) = false
  ↔ (100 < length t)%nat ∧ t !! 99%nat = Some SPACE.
Proof.
  intros Ht. destruct (decide (length t ≤ 100)%nat) as [Hle|Hgt].
  - rewrite take_ge by done. split; [congruence | lia].
  - rewrite no_trailing_space_last, last_lookup, length_take_le by lia.
    change (pred 100) with 99%nat. rewrite lookup_take_lt by lia.
    destruct (t !! 99%nat) as [c|] eqn:Hc.
    + destruct (N.eqb_spec c SPACE) as [->|Hne]; cbn [negb].
      * split; [intros _; split; [lia | done] | done].
      * split; [done | intros [_ Heq]; congruence].
    + apply lookup_ge_None in Hc. lia.
Qed.

(** C2, as the code has it.  For every input the output of
    [sanitizeFilename] consists of characters of [[A-Za-z0-9 _-]] only, is
    at most 100 units long, contains no two consecutive spaces and does not
    start with a space.  It ends in a space exactly when the trimmed text
    is longer than 100 units and its 100th unit is a space: the truncation
    comes after the trimming. *)
Theorem sanitizeFilename_shape (name : jsstr) :
  matches_name_regex (sanitizeFilename name) = true
  ∧ no_double_space (sanitizeFilename name) = true
  ∧ no_leading_space (sanitizeFilename name) = true
  ∧ (no_trailing_space (sanitizeFilename name) = false
     ↔ (100 < length (clean_text name))%nat
       ∧ clean_text name !! 99%nat = Some SPACE).
Proof.
  change (sanitizeFilename name) with (take 100 (clean_text name)).
  split; [|split; [|split]].
  - unfold matches_name_regex. apply andb_true_iff. split.
    + apply forallb_name_char, Forall_take, clean_text_chars.
    + apply Nat.leb_le. rewrite length_take. lia.
  - apply no_double_space_take, clean_text_spacing.
  - apply no_leading_space_take, clean_text_leading.
  - apply truncated_trailing_space, clean_text_trailing.
Qed.

(** C2 as the spec states it fails: the clean text of [long_suggestion] is
    cut right after a space. *)
Lemma sanitizeFilename_trailing_space :
  ¬ (matches_name_regex (sanitizeFilename long_suggestion) = true
     ∧ no_double_space (sanitizeFilename long_suggestion) = true
     ∧ no_leading_space (sanitizeFilename long_suggestion) = true
     ∧ no_trailing_space (sanitizeFilename long_suggestion) = true).
Proof. intros (_ & _ & _ & H). vm_compute in H. discriminate. Qed.

Example sanitize_sunset :
  sanitizeFilename (lit "Sunset!! @ the Beach...") = lit "Sunset the Beach".
Proof. vm_compute. reflexivity. Qed.

End SanitizerShape.

(** ** Paths *)

Section PathFacts.

Lemma no_slash_app (a b : jsstr) :
  no_slash (a ++ b) = no_slash a && no_slash b.
Proof. apply forallb_app. Qed.

Lemma no_slash_rev (a : jsstr) : no_slash (rev a) = no_slash a.
Proof.
  induction a as [|c r IH]; [done|]. simpl.
  rewrite no_slash_app, IH. simpl. rewrite andb_true_r. apply andb_comm.
Qed.

Lemma split_nonempty (p : jsstr) : path.split p ≠ [].
Proof.
  destruct p as [|c r]; simpl; [done|].
  destruct (c =? SLASH); [done|]. by destruct (path.split r).
Qed.

Lemma split_no_slash (seg : jsstr) : no_slash seg = true → path.split seg = [seg].
Proof.
  induction seg as [|c r IH]; [done|]. simpl.
  intros [Hc Hr]%andb_true_iff. apply negb_true_iff in Hc.
  by rewrite Hc, (IH Hr).
Qed.

Lemma split_app_slash (a b : jsstr) :
  path.split (a ++ SLASH :: b) = path.split a ++ path.split b.
Proof.
  induction a as [|c r IH]; [done|]. simpl.
  destruct (c =? SLASH); [by rewrite IH|]. rewrite IH.
  pose proof (split_nonempty r). by destruct (path.split r).
Qed.

Lemma split_simple_last (pre seg : jsstr) :
  slash_terminated pre → no_slash seg = true →
  ∃ segs, path.split (pre ++ seg) = segs ++ [seg].
Proof.
  intros [->|[q ->]] Hseg.
  - exists []. by apply split_no_slash.
  - exists (path.split q).
    rewrite <- app_assoc. cbn [app].
    by rewrite (split_app_slash q seg), (split_no_slash seg).
Qed.

Lemma normalize_step_simple (allow : bool) (stack : list jsstr) (seg : jsstr) :
  simple_segment seg → path.normalize_step allow stack seg = seg :: stack.
Proof.
  intros (_ & H0 & H1 & H2). unfold path.normalize_step.
  by rewrite !bool_decide_eq_false_2.
Qed.

Lemma unsplit_snoc (segs : list jsstr) (seg : jsstr) :
  ∃ pre, slash_terminated pre ∧ path.unsplit (segs ++ [seg]) = pre ++ seg.
Proof.
  induction segs as [|s0 rest (pre & Hpre & IH)].
  - exists []. split; [by left | done].
  - exists (s0 ++ SLASH :: pre). split.
    + right. destruct Hpre as [->|[q ->]].
      * by exists s0.
      * exists (s0 ++ SLASH :: q). by rewrite <- app_assoc.
    + change ((s0 :: rest) ++ [seg]) with (s0 :: (rest ++ [seg])).
      cbn [path.unsplit]. rewrite IH.
      destruct (rest ++ [seg]) eqn:E; [by destruct rest|].
      by rewrite <- app_assoc.
Qed.

Lemma normalizeString_simple_last (allow : bool) (pre seg : jsstr) :
  slash_terminated pre → simple_segment seg →
  ∃ out, slash_terminated out
         ∧ path.normalizeString allow (pre ++ seg) = out ++ seg.
Proof.
  intros Hpre Hseg. destruct (split_simple_last pre seg Hpre) as [segs Hs];
    [apply Hseg|].
  unfold path.normalizeString. rewrite Hs, fold_left_app. cbn [fold_left].
  rewrite normalize_step_simple by done. cbn [rev]. apply unsplit_snoc.
Qed.

Lemma simple_segment_last (seg : jsstr) :
  simple_segment seg → ∃ c r, rev seg = c :: r ∧ (c =? SLASH) = false.
Proof.
  intros (Hns & Hne & _). rewrite <- no_slash_rev in Hns.
  destruct (rev seg) as [|c r] eqn:E.
  - apply (f_equal (@rev N)) in E. rewrite rev_involutive in E. done.
  - exists c, r. split; [done|]. simpl in Hns.
    apply andb_true_iff in Hns as [Hc _]. by apply negb_true_iff.
Qed.

Lemma simple_segment_first (seg : jsstr) :
  simple_segment seg → ∃ c r, seg = c :: r ∧ (c =? SLASH) = false.
Proof.
  intros (Hns & Hne & _). destruct seg as [|c r]; [done|].
  exists c, r. split; [done|]. simpl in Hns.
  apply andb_true_iff in Hns as [Hc _]. by apply negb_true_iff.
Qed.

(** Joining or normalizing leaves a simple last component in place. *)
Lemma normalize_simple_last (pre seg : jsstr) :
  slash_terminated pre → simple_segment seg →
  ∃ out, slash_terminated out ∧ path.normalize (pre ++ seg) = out ++ seg.
Proof.
  intros Hpre Hseg. unfold path.normalize.
  destruct (simple_segment_last seg Hseg) as (c & r & Hrev & Hc).
  destruct (simple_segment_first seg Hseg) as (c1 & r1 & Hfirst & Hc1).
  assert (path.ends_with_slash (pre ++ seg) = false) as ->.
  { unfold path.ends_with_slash. by rewrite rev_app_distr, Hrev. }
  destruct (normalizeString_simple_last
              (negb (path.starts_with_slash (pre ++ seg))) pre seg Hpre Hseg)
    as (out & Hout & ->).
  destruct (pre ++ seg) as [|p0 ps] eqn:Ejoined.
  { destruct pre; [subst seg|]; done. }
  destruct (out ++ seg) as [|o0 os] eqn:Eout.
  { destruct out; [subst seg|]; done. }
  rewrite <- Eout, app_nil_r.
  destruct (path.starts_with_slash (p0 :: ps)) eqn:Habs.
  - exists ([SLASH] ++ out). split; [|by rewrite <- app_assoc].
    destruct Hout as [->|[q ->]]; right; [by exists [] | by exists (SLASH :: q)].
  - by exists out.
Qed.

Lemma until_slash_app (a b : jsstr) :
  no_slash a = true → b = [] ∨ (∃ r, b = SLASH :: r) →
  path.until_slash (a ++ b) = a.
Proof.
  intros Ha Hb. induction a as [|c r IH]; simpl.
  - by destruct Hb as [->|[r ->]].
  - simpl in Ha. apply andb_true_iff in Ha as [Hc Hr].
    apply negb_true_iff in Hc. by rewrite Hc, (IH Hr).
Qed.

Lemma basename_simple_last (out seg : jsstr) :
  slash_terminated out → simple_segment seg →
  path.basename (out ++ seg) = seg.
Proof.
  intros Hout Hseg. unfold path.basename. rewrite rev_app_distr.
  destruct (simple_segment_last seg Hseg) as (c & r & Hrev & Hc).
  assert (path.drop_slashes (rev seg ++ rev out) = rev seg ++ rev out) as ->.
  { rewrite Hrev. simpl. by rewrite Hc. }
  rewrite until_slash_app.
  - apply rev_involutive.
  - rewrite no_slash_rev. apply Hseg.
  - destruct Hout as [->|[q ->]]; [by left|right].
    rewrite rev_app_distr. by eexists.
Qed.

(** [path.basename(path.join(dir, seg))] is [seg] for a simple [seg]. *)
Lemma basename_join (dir seg : jsstr) :
  simple_segment seg → path.basename (path.join dir seg) = seg.
Proof.
  intros Hseg.
  assert (∃ pre, slash_terminated pre ∧ path.join dir seg = path.normalize (pre ++ seg))
    as (pre & Hpre & ->).
  { destruct (simple_segment_first seg Hseg) as (c & r & -> & _).
    destruct dir as [|d ds].
    - exists []. split; [by left | done].
    - exists ((d :: ds) ++ [SLASH]). split; [right; by eexists|].
      unfold path.join. by rewrite <- app_assoc. }
  destruct (normalize_simple_last pre seg Hpre Hseg) as (out & Hout & ->).
  by apply basename_simple_last.
Qed.

End PathFacts.

(** ** Decimal numerals *)

Section Numerals.

Lemma lit_inj (a b : string) : lit a = lit b → a = b.
Proof.
  unfold lit. intros H.
  rewrite <- (string_of_list_ascii_of_string a), <- (string_of_list_ascii_of_string b).
  f_equal. revert H. generalize (list_ascii_of_string b).
  induction (list_ascii_of_string a) as [|x xs IH]; intros [|y ys]; simpl; try done.
  intros [= Hxy Hrest]. f_equal; [|by apply IH].
  by rewrite <- (ascii_N_embedding x), <- (ascii_N_embedding y), Hxy.
Qed.

Lemma dec_inj (j k : nat) : dec j = dec k → j = k.
Proof.
  unfold dec. intros H%lit_inj. apply DecimalNat.Unsigned.to_uint_inj.
  assert (Some (Nat.to_uint j) = Some (Nat.to_uint k)) as [=]; [|done].
  by rewrite <- !NilEmpty.usu, H.
Qed.

Lemma no_slash_numeral (d : uint) : no_slash (lit (NilEmpty.string_of_uint d)) = true.
Proof. induction d; simpl; [done|..]; exact IHd. Qed.

Lemma no_slash_dec (k : nat) : no_slash (dec k) = true.
Proof. apply no_slash_numeral. Qed.

End Numerals.

(** ** The candidates of the collision resolver *)

Section Candidates.

Context (dir baseName ext : jsstr).

Lemma candidate_succ (k : nat) :
  candidate dir baseName ext (S k) = path.join dir (segment baseName ext (S k)).
Proof. reflexivity. Qed.

Lemma segment_inj (j k : nat) :
  segment baseName ext j = segment baseName ext k → j = k.
Proof.
  unfold segment. intros H. do 2 apply app_inv_head in H.
  apply app_inv_tail in H. by apply dec_inj.
Qed.

Lemma segment_simple (k : nat) :
  no_slash baseName = true → no_slash ext = true →
  simple_segment (segment baseName ext k).
Proof.
  intros Hb He.
  assert (UNDERSCORE ∈ segment baseName ext k) as Hin.
  { unfold segment. apply elem_of_app. right. apply elem_of_app. left.
    apply list_elem_of_singleton. reflexivity. }
  split; [|split; [|split]].
  - unfold segment. by rewrite !no_slash_app, Hb, He, no_slash_dec.
  - intros E. rewrite E in Hin. by apply elem_of_nil in Hin.
  - intros E. rewrite E in Hin. apply list_elem_of_singleton in Hin. done.
  - intros E. rewrite E in Hin.
    apply elem_of_cons in Hin as [|Hin%list_elem_of_singleton]; done.
Qed.

(** The numbered candidates are pairwise distinct paths. *)
Lemma candidate_inj (j k : nat) :
  no_slash baseName = true → no_slash ext = true →
  candidate dir baseName ext (S j) = candidate dir baseName ext (S k) → j = k.
Proof.
  intros Hb He H. rewrite !candidate_succ in H.
  apply (f_equal path.basename) in H.
  rewrite !basename_join in H by by apply segment_simple.
  apply segment_inj in H. lia.
Qed.

Context (existing : jsstr → bool).

Local Abbreviation cand := (candidate dir baseName ext).
Local Abbreviation loop :=
  (λ fuel, getUniqueFilename_loop fuel existing dir baseName ext).

(** From candidate [j], the loop walks over [n] existing candidates and
    returns the next one. *)
Lemma loop_run (n : nat) :
  ∀ j fuel,
    (∀ i, j ≤ i < j + n → existing (cand i) = true)%nat →
    existing (cand (j + n)) = false →
    (n < fuel)%nat →
    loop fuel (cand j) (S j) = Some (cand (j + n)).
Proof.
  induction n as [|n IH]; intros j fuel Hbusy Hfree Hfuel;
    (destruct fuel as [|fuel]; [lia|]); cbn [getUniqueFilename_loop].
  - rewrite Nat.add_0_r in Hfree. rewrite Hfree. by rewrite Nat.add_0_r.
  - rewrite (Hbusy j) by lia.
    change (path.join dir (baseName ++ lit "_" ++ dec (S j) ++ ext))
      with (cand (S j)).
    rewrite (IH (S j) fuel).
    + f_equal. f_equal. lia.
    + intros i Hi. apply Hbusy. lia.
    + by replace (S j + n)%nat with (j + S n)%nat by lia.
    + lia.
Qed.

(** While every candidate exists, the loop does not return. *)
Lemma loop_stuck (fuel : nat) :
  ∀ j, (∀ i, (j ≤ i)%nat → existing (cand i) = true) →
       loop fuel (cand j) (S j) = None.
Proof.
  induction fuel as [|fuel IH]; intros j Hbusy; cbn [getUniqueFilename_loop]; [done|].
  rewrite (Hbusy j) by lia.
  change (path.join dir (baseName ++ lit "_" ++ dec (S j) ++ ext))
    with (cand (S j)).
  apply IH. intros i Hi. apply Hbusy. lia.
Qed.

(** What the loop returns is the first candidate that does not exist. *)
Lemma loop_sound (fuel : nat) :
  ∀ j p, loop fuel (cand j) (S j) = Some p →
         existing p = false
         ∧ ∃ k, (j ≤ k)%nat ∧ p = cand k
                ∧ ∀ i, (j ≤ i < k)%nat → existing (cand i) = true.
Proof.
  induction fuel as [|fuel IH]; intros j p; cbn [getUniqueFilename_loop]; [done|].
  destruct (existing (cand j)) eqn:Hj.
  - change (path.join dir (baseName ++ lit "_" ++ dec (S j) ++ ext))
      with (cand (S j)).
    intros (Hp & k & Hk & -> & Hbusy)%IH. split; [done|].
    exists k. split; [lia|]. split; [done|].
    intros i Hi. destruct (decide (i = j)) as [->|]; [done|]. apply Hbusy. lia.
  - intros [= <-]. split; [done|]. exists j. split; [lia|]. split; [done|]. lia.
Qed.

(** Below a candidate that does not exist there is a first one. *)
Lemma first_free (k : nat) :
  existing (cand k) = false →
  ∃ m, (m ≤ k)%nat ∧ existing (cand m) = false
       ∧ ∀ i, (i < m)%nat → existing (cand i) = true.
Proof.
  induction k as [k IH] using lt_wf_ind. intros Hk.
  destruct (decide (Forall (λ i, existing (cand i) = true) (seq 0 k))) as [Hall|Hnot].
  - exists k. split; [lia|]. split; [done|]. intros i Hi.
    rewrite Forall_forall in Hall. apply Hall, elem_of_seq. lia.
  - apply not_Forall_Exists, Exists_exists in Hnot as (i & Hi%elem_of_seq & Hfree).
    + simpl in Hfree. apply not_true_is_false in Hfree.
      destruct (IH i) as (m & Hm & Hfree' & Hbusy); [lia | done |].
      exists m. split; [lia|]. by split.
    + intros x. apply _.
Qed.

End Candidates.

(** ** The collision resolver *)

Section Resolver.

(** On a finite file system, one of the first [size fs + 1] numbered
    candidates does not exist. *)
Lemma free_candidate (fs : FS) (dir baseName ext : jsstr) :
  no_slash baseName = true → no_slash ext = true →
  ∃ k, (1 ≤ k ≤ S (size fs))%nat
       ∧ exists_in fs (candidate dir baseName ext k) = false.
Proof.
  intros Hb He. set (cand := candidate dir baseName ext).
  set (ks := seq 1 (S (size fs))).
  destruct (decide (Forall (λ k, exists_in fs (cand k) = true) ks)) as [Hall|Hnot].
  - exfalso.
    assert (length (cand <$> ks) ≤ length (map_to_list fs).*1)%nat as Hlen.
    { apply submseteq_length, NoDup_submseteq.
      - apply NoDup_fmap_2_strong; [|apply NoDup_seq].
        intros x y Hx%elem_of_seq Hy%elem_of_seq Hxy.
        destruct x as [|x], y as [|y]; try lia.
        f_equal. by apply (candidate_inj dir baseName ext).
      - intros p (k & -> & Hk)%list_elem_of_fmap.
        rewrite Forall_forall in Hall. specialize (Hall k Hk).
        unfold exists_in in Hall. destruct (fs !! cand k) as [data|] eqn:E; [|done].
        apply list_elem_of_fmap. exists (cand k, data).
        split; [done|]. by apply elem_of_map_to_list. }
    rewrite !length_fmap, length_map_to_list in Hlen. subst ks.
    rewrite length_seq in Hlen. lia.
  - apply not_Forall_Exists, Exists_exists in Hnot as (k & Hk%elem_of_seq & Hfree).
    + exists k. split; [lia|]. simpl in Hfree. by apply not_true_is_false.
    + intros k. apply _.
Qed.

Lemma getUniqueFilename_returns (existing : jsstr → bool)
    (dir baseName ext : jsstr) (k : nat) :
  existing (candidate dir baseName ext k) = false →
  ∃ m, (m ≤ k)%nat
       ∧ ∀ fuel, (m < fuel)%nat →
           getUniqueFilename_on fuel existing dir baseName ext
           = Some (candidate dir baseName ext m).
Proof.
  intros (m & Hm & Hfree & Hbusy)%first_free. exists m. split; [done|].
  intros fuel Hfuel. unfold getUniqueFilename_on.
  apply (loop_run dir baseName ext existing m 0 fuel); [|done..].
  intros i Hi. apply Hbusy. lia.
Qed.

(** [renameImage] can always resolve a path. *)
Lemma getUniqueFilename_finite (fs : FS) (dir baseName ext : jsstr) :
  no_slash baseName = true → no_slash ext = true →
  ∃ m, (m ≤ S (size fs))%nat
       ∧ ∀ fuel, (m < fuel)%nat →
           getUniqueFilename fuel fs dir baseName ext
           = Some (candidate dir baseName ext m).
Proof.
  intros Hb He.
  destruct (free_candidate fs dir baseName ext Hb He) as (k & Hk & Hfree).
  destruct (getUniqueFilename_returns _ _ _ _ _ Hfree) as (m & Hm & Hrun).
  exists m. split; [lia | done].
Qed.

(** C5.  [getUniqueFilename] returns [dir/baseName.ext] when that path does
    not exist; otherwise, when [dir/baseName_k.ext] is the first numbered
    path ([k ≥ 1]) that does not exist, it returns that one (any fuel above
    [k] is enough for the loop).  Whatever it returns does not exist.  With
    [cat.jpg] and [cat_1.jpg] present and [cat_2.jpg] absent the result is
    [dir/cat_2.jpg]. *)
Theorem getUniqueFilename_first_fit (fs : FS) (dir baseName ext : jsstr) :
  (exists_in fs (path.join dir (baseName ++ ext)) = false →
   ∀ fuel, (0 < fuel)%nat →
     getUniqueFilename fuel fs dir baseName ext
     = Some (path.join dir (baseName ++ ext)))
  ∧ (∀ k, (1 ≤ k)%nat →
       exists_in fs (path.join dir (baseName ++ ext)) = true →
       (∀ i, (1 ≤ i < k)%nat →
          exists_in fs (path.join dir (baseName ++ lit "_" ++ dec i ++ ext)) = true) →
       exists_in fs (path.join dir (baseName ++ lit "_" ++ dec k ++ ext)) = false →
       ∀ fuel, (k < fuel)%nat →
         getUniqueFilename fuel fs dir baseName ext
         = Some (path.join dir (baseName ++ lit "_" ++ dec k ++ ext)))
  ∧ (∀ fuel p, getUniqueFilename fuel fs dir baseName ext = Some p →
       exists_in fs p = false)
  ∧ (baseName = lit "cat" → ext = lit ".jpg" →
     exists_in fs (path.join dir (lit "cat.jpg")) = true →
     exists_in fs (path.join dir (lit "cat_1.jpg")) = true →
     exists_in fs (path.join dir (lit "cat_2.jpg")) = false →
     ∀ fuel, (2 < fuel)%nat →
       getUniqueFilename fuel fs dir baseName ext
       = Some (path.join dir (lit "cat_2.jpg"))).
Proof.
  assert (∀ k, (1 ≤ k)%nat →
       exists_in fs (path.join dir (baseName ++ ext)) = true →
       (∀ i, (1 ≤ i < k)%nat →
          exists_in fs (path.join dir (baseName ++ lit "_" ++ dec i ++ ext)) = true) →
       exists_in fs (path.join dir (baseName ++ lit "_" ++ dec k ++ ext)) = false →
       ∀ fuel, (k < fuel)%nat →
         getUniqueFilename fuel fs dir baseName ext
         = Some (path.join dir (baseName ++ lit "_" ++ dec k ++ ext))) as Hnumbered.
  { intros k Hk H0 Hbusy Hfree fuel Hfuel.
    destruct k as [|k]; [lia|].
    apply (loop_run dir baseName ext (exists_in fs) (S k) 0 fuel); [|done..].
    intros [|i] Hi; [done|]. apply Hbusy. lia. }
  split; [|split; [done|split]].
  - intros Hfree fuel Hfuel.
    apply (loop_run dir baseName ext (exists_in fs) 0 0 fuel); [|done..].
    intros i Hi. lia.
  - intros fuel p Hp.
    by apply (loop_sound dir baseName ext (exists_in fs) fuel 0 p).
  - intros -> -> H0 H1 H2 fuel Hfuel.
    apply (Hnumbered 2%nat); [lia | done | | done..].
    intros i Hi. by replace i with 1%nat by lia.
Qed.

(** The same run on a concrete directory. *)
Lemma getUniqueFilename_first_fit_cats :
  getUniqueFilename 3 two_cats (lit "/d") (lit "cat") (lit ".jpg")
  = Some (lit "/d/cat_2.jpg").
Proof.
  destruct (getUniqueFilename_first_fit two_cats (lit "/d") (lit "cat") (lit ".jpg"))
    as (_ & Hnumbered & _ & _).
  apply (Hnumbered 2%nat).
  - apply Nat.le_succ_diag_r.
  - vm_compute. reflexivity.
  - intros i [Hlo Hhi].
    destruct i as [|[|i]]; [inversion Hlo | vm_compute; reflexivity |].
    exfalso. apply Nat.succ_lt_mono, Nat.succ_lt_mono in Hhi. inversion Hhi.
  - vm_compute. reflexivity.
  - apply Nat.lt_succ_diag_r.
Defined.

End Resolver.

(** ** Termination of the collision resolver *)

Section ResolverTermination.

Lemma loop_short (existing : jsstr → bool) (dir baseName ext : jsstr) (fuel : nat) :
  ∀ j, (∀ i, j ≤ i < j + fuel → existing (candidate dir baseName ext i) = true)%nat →
       getUniqueFilename_loop fuel existing dir baseName ext
         (candidate dir baseName ext j) (S j) = None.
Proof.
  induction fuel as [|fuel IH]; intros j Hbusy; cbn [getUniqueFilename_loop]; [done|].
  rewrite (Hbusy j) by lia.
  change (path.join dir (baseName ++ lit "_" ++ dec (S j) ++ ext))
    with (candidate dir baseName ext (S j)).
  apply IH. intros i Hi. apply Hbusy. lia.
Qed.

Lemma busy_prefix_busy (dir baseName ext : jsstr) (n i : nat) :
  (i < n)%nat →
  exists_in (busy_prefix dir baseName ext n) (candidate dir baseName ext i) = true.
Proof.
  intros Hi. unfold exists_in, busy_prefix.
  destruct (list_to_map _ !! _) as [data|] eqn:E; [done|].
  apply not_elem_of_list_to_map_2 in E. exfalso. apply E.
  rewrite <- list_fmap_compose. apply list_elem_of_fmap.
  exists i. split; [done|]. apply elem_of_seq. lia.
Qed.

Lemma busy_prefix_free (dir baseName ext : jsstr) (n : nat) :
  (∀ i, (i < n)%nat → candidate dir baseName ext i ≠ candidate dir baseName ext n) →
  exists_in (busy_prefix dir baseName ext n) (candidate dir baseName ext n) = false.
Proof.
  intros Hne. unfold exists_in, busy_prefix.
  rewrite not_elem_of_list_to_map_1; [done|].
  rewrite <- list_fmap_compose. intros (i & Heq & Hi%elem_of_seq)%list_elem_of_fmap.
  simpl in Heq. apply (Hne i); [lia | done].
Qed.

Lemma cat_candidates_distinct (i n : nat) :
  (i < n)%nat →
  candidate (lit "/d") (lit "cat") (lit ".jpg") i
  ≠ candidate (lit "/d") (lit "cat") (lit ".jpg") n.
Proof.
  intros Hi Heq. destruct n as [|n]; [lia|]. destruct i as [|i].
  - apply (f_equal path.basename) in Heq. rewrite candidate_succ in Heq.
    rewrite basename_join in Heq by by apply segment_simple.
    vm_compute in Heq. discriminate.
  - apply candidate_inj in Heq; [lia | done..].
Qed.

(** C10.  [getUniqueFilename] returns as soon as some candidate path, as
    [path.join] computes it, does not exist.  On a finite file system that
    is always the case for a [baseName] and an [ext] without a path
    separator, which is what its caller passes (a sanitized name and the
    extension of a path): the numbered candidates are then pairwise
    distinct.  The counter is not bounded: for every [n] there is a file
    system on which the result is candidate [n], reached after exactly
    [n + 1] probes; and when every candidate exists the loop never
    returns. *)
Theorem getUniqueFilename_termination :
  (∀ (existing : jsstr → bool) (dir baseName ext : jsstr) (k : nat),
     existing (candidate dir baseName ext k) = false →
     ∃ fuel p, getUniqueFilename_on fuel existing dir baseName ext = Some p)
  ∧ (∀ (fs : FS) (dir baseName ext : jsstr),
       no_slash baseName = true → no_slash ext = true →
       ∃ fuel p, getUniqueFilename fuel fs dir baseName ext = Some p)
  ∧ (∀ n : nat, ∃ fs : FS, ∀ fuel,
       getUniqueFilename fuel fs (lit "/d") (lit "cat") (lit ".jpg")
       = if (n <? fuel)%nat
         then Some (candidate (lit "/d") (lit "cat") (lit ".jpg") n)
         else None)
  ∧ (∀ (existing : jsstr → bool) (dir baseName ext : jsstr),
       (∀ k, existing (candidate dir baseName ext k) = true) →
       ∀ fuel, getUniqueFilename_on fuel existing dir baseName ext = None).
Proof.
  split; [|split; [|split]].
  - intros existing dir baseName ext k Hfree.
    destruct (getUniqueFilename_returns _ _ _ _ _ Hfree) as (m & _ & Hrun).
    exists (S m), (candidate dir baseName ext m). apply Hrun. lia.
  - intros fs dir baseName ext Hb He.
    destruct (getUniqueFilename_finite fs dir baseName ext Hb He) as (m & _ & Hrun).
    exists (S m), (candidate dir baseName ext m). apply Hrun. lia.
  - intros n. exists (busy_prefix (lit "/d") (lit "cat") (lit ".jpg") n).
    intros fuel. destruct (Nat.ltb_spec n fuel) as [Hlt|Hge].
    + apply (loop_run _ _ _ _ n 0 fuel); [| |done].
      * intros i Hi. apply busy_prefix_busy. lia.
      * apply busy_prefix_free. intros i Hi. by apply cat_candidates_distinct.
    + apply (loop_short _ _ _ _ fuel 0).
      intros i Hi. apply busy_prefix_busy. lia.
  - intros existing dir baseName ext Hbusy fuel.
    apply (loop_stuck dir baseName ext existing fuel 0). auto.
Qed.

(** The resolver returns on [two_cats], and it never returns when asked
    for a path while everything exists. *)
Lemma getUniqueFilename_termination_run :
  (∃ fuel p, getUniqueFilename fuel two_cats (lit "/d") (lit "cat") (lit ".jpg") = Some p)
  ∧ (∀ fuel, getUniqueFilename_on fuel (λ _, true) (lit "/d") (lit "cat") (lit ".jpg") = None).
Proof.
  destruct getUniqueFilename_termination as (_ & Hfinite & _ & Hstuck).
  split.
  - apply Hfinite; vm_compute; reflexivity.
  - apply Hstuck. intros k. reflexivity.
Defined.

End ResolverTermination.

(** ** The image preprocessor *)

Section Preprocessor.

Lemma preprocessImage_run (env : task_env) (imagePath : jsstr) (fs : FS) :
  preprocessImage env imagePath fs
  = match convert env imagePath fs with
    | None => None
    | Some (r, fs1) => Some (cleanup env r fs1)
    end.
Proof.
  unfold preprocessImage, try_finally. cbn zeta.
  change (_ ← execSync_sips env imagePath (scratch_path env);
          processed ← readFileSync env (scratch_path env); mret processed)
    with (convert env imagePath).
  destruct (convert env imagePath fs) as [[r fs1]|]; [|done].
  unfold cleanup, mbind, M_bind, existsSync, unlinkSync, exists_in, mret, M_ret.
  destruct (fs1 !! scratch_path env) eqn:E; [|done].
  rewrite E. by destruct (unlink_failure env).
Qed.

Lemma convert_total (env : task_env) (imagePath : jsstr) (fs : FS) :
  ∃ r fs1, convert env imagePath fs = Some (r, fs1).
Proof.
  unfold convert, mbind, M_bind, execSync_sips, readFileSync, mret, M_ret.
  destruct (plain_operand imagePath && plain_operand (scratch_path env)).
  - destruct (sips env) as [output|e [partial|]]; [|eauto..].
    destruct (read_failure env); [eauto|]. rewrite lookup_insert_eq. eauto.
  - destruct (shell env _ fs) as [[e|[]] fs1]; [eauto|].
    destruct (read_failure env); [eauto|]. destruct (fs1 !! _); eauto.
Qed.

(** On plain operands the [try] block writes nothing but the scratch
    file. *)
Lemma convert_plain (env : task_env) (imagePath : jsstr) (fs : FS) :
  plain_operands env imagePath →
  ∃ fs1, convert env imagePath fs = Some (preprocess_outcome env, fs1)
         ∧ delete (scratch_path env) fs1 = delete (scratch_path env) fs.
Proof.
  intros [Himage Hscratch].
  unfold convert, preprocess_outcome, mbind, M_bind, execSync_sips, readFileSync,
    mret, M_ret.
  rewrite Himage, Hscratch. simpl.
  destruct (sips env) as [output|e [partial|]].
  - destruct (read_failure env); [|rewrite lookup_insert_eq];
      eexists; (split; [done|]); apply delete_insert_eq.
  - eexists. split; [done|]. apply delete_insert_eq.
  - by eexists.
Qed.

Lemma preprocessImage_total (env : task_env) (imagePath : jsstr) (fs : FS) :
  ∃ r fs1, preprocessImage env imagePath fs = Some (r, fs1).
Proof.
  rewrite preprocessImage_run.
  destruct (convert_total env imagePath fs) as (r & fs1 & ->).
  destruct (cleanup env r fs1) as [r' fs']. eauto.
Qed.

(** What the [finally] block leaves. *)
Lemma cleanup_spec (env : task_env) (r r' : result bytes) (fs fs' : FS) :
  cleanup env r fs = (r', fs') →
  (unlink_failure env = None →
   r' = r ∧ fs' = delete (scratch_path env) fs)
  ∧ (exists_in fs' (scratch_path env) = true →
     ∃ e, unlink_failure env = Some e ∧ r' = Throw e ∧ fs' = fs)
  ∧ (∀ p, p ≠ scratch_path env → fs' !! p = fs !! p).
Proof.
  unfold cleanup, exists_in.
  destruct (fs !! scratch_path env) as [data|] eqn:E.
  - destruct (unlink_failure env) as [e|]; intros [= <- <-].
    + split; [done|]. split; [by eauto|]. done.
    + split; [done|]. split; [by rewrite lookup_delete_eq|].
      intros p Hp. by rewrite lookup_delete_ne.
  - intros [= <- <-]. split; [by rewrite delete_id|]. split; [by rewrite E|done].
Qed.

Lemma preprocessImage_plain (env : task_env) (imagePath : jsstr) (fs : FS)
    (r : result bytes) (fs' : FS) :
  plain_operands env imagePath →
  preprocessImage env imagePath fs = Some (r, fs') →
  (∀ p, p ≠ scratch_path env → fs' !! p = fs !! p)
  ∧ (unlink_failure env = None →
     r = preprocess_outcome env ∧ fs' = delete (scratch_path env) fs).
Proof.
  intros Hplain. rewrite preprocessImage_run.
  destruct (convert_plain env imagePath fs Hplain) as (fs1 & -> & Hfs1).
  intros [= Hclean]. apply cleanup_spec in Hclean as (Hok & _ & Hframe).
  split.
  - intros p Hp. rewrite (Hframe p Hp).
    rewrite <- (lookup_delete_ne fs1 (scratch_path env) p) by done.
    rewrite Hfs1. by apply lookup_delete_ne.
  - intros Hunlink. destruct (Hok Hunlink) as [-> ->]. done.
Qed.

(** C9, as the code has it.  However [preprocessImage] ends (the
    conversion succeeds, the conversion fails with or without a partial
    output, reading the output throws, or the shell runs something else
    altogether), it ends, and afterwards the scratch path does not exist,
    with one exception: when [unlinkSync] itself throws in the [finally]
    block.  The scratch path is there afterwards only in that case, and
    then [preprocessImage] throws the error of [unlinkSync].  On plain
    operands and with a working [unlinkSync], the outcome is the one of the
    conversion and the read, and the file system is the initial one
    without the scratch path. *)
Theorem preprocessImage_removes_scratch (env : task_env) (imagePath : jsstr) (fs : FS) :
  ∃ (r : result bytes) (fs' : FS),
    preprocessImage env imagePath fs = Some (r, fs')
    ∧ (unlink_failure env = None → exists_in fs' (scratch_path env) = false)
    ∧ (exists_in fs' (scratch_path env) = true →
       ∃ e, unlink_failure env = Some e ∧ r = Throw e)
    ∧ (plain_operands env imagePath → unlink_failure env = None →
       r = preprocess_outcome env ∧ fs' = delete (scratch_path env) fs).
Proof.
  destruct (preprocessImage_total env imagePath fs) as (r & fs' & Hrun).
  exists r, fs'. split; [done|].
  pose proof Hrun as Hrun'. rewrite preprocessImage_run in Hrun'.
  destruct (convert env imagePath fs) as [[r1 fs1]|]; [|done].
  injection Hrun' as Hclean. apply cleanup_spec in Hclean as (Hok & Hleft & _).
  split; [|split].
  - intros Hunlink. destruct (Hok Hunlink) as [_ ->].
    unfold exists_in. by rewrite lookup_delete_eq.
  - intros Hthere. destruct (Hleft Hthere) as (e & He & -> & _). eauto.
  - intros Hplain. by apply (preprocessImage_plain env imagePath fs).
Qed.

(** C9 as the spec states it fails: the conversion succeeds, the system
    refuses to remove the scratch file, [preprocessImage] throws the error
    of [unlinkSync], and the scratch file is still there. *)
Lemma preprocessImage_scratch_left :
  preprocessImage locked_env (lit "/d/cat.jpg") cat_fs
  = Some (Throw (JsError (lit "EPERM: operation not permitted, unlink '/tmp/raycast-lmstudio-1700000000004.jpg'")),
          <[lit "/tmp/raycast-lmstudio-1700000000004.jpg" := [Byte.xff; Byte.xd8]]> cat_fs)
  ∧ exists_in (<[lit "/tmp/raycast-lmstudio-1700000000004.jpg" := [Byte.xff; Byte.xd8]]> cat_fs)
      (scratch_path locked_env) = true.
Proof. split; vm_compute; reflexivity. Qed.

(** A command substitution in the path of the image is run by the shell:
    here it removes a file that is no part of the task. *)
Example preprocessImage_shell_injection :
  plain_operand injected_path = false
  ∧ ∃ e, preprocessImage injected_env injected_path injected_fs
         = Some (Throw e, {[ injected_path := jpeg ]}).
Proof. split; [reflexivity|]. eexists. vm_compute. reflexivity. Qed.

End Preprocessor.

(** ** The vision API client *)

Section Client.

Lemma json_null_or_not (data : json) : data = JNull ∨ data ≠ JNull.
Proof. destruct data; [by left | by right..]. Qed.

Lemma reported_error_Some (data err : json) :
  reported_error data = Some err
  ↔ get (lit "error") data = Some err ∧ truthy err = true.
Proof.
  unfold reported_error. destruct (get _ data) as [err'|]; [|by split; [|intros []]].
  destruct (truthy err') eqn:Ht.
  - split; [by intros [= <-] | by intros [[= <-] _]].
  - split; [done|]. intros [[= <-] ?]. congruence.
Qed.

(** The reading of a parsed body other than [null]. *)
Lemma describeImage_parsed (env : task_env) (statusText : jsstr) (data : json) :
  completion env = FetchResponse true statusText (JsonParsed data) →
  data ≠ JNull →
  describeImage env
  = match reported_error data with
    | Some err =>
        match template (get (lit "message") err) with
        | Some text => Throw (JsError (lit "LM Studio error: " ++ text))
        | None => Throw (TypeError env NotPrimitive)
        end
    | None =>
        match first_content data with
        | None | Some JNull => Throw (JsError (lit "No name suggestion returned"))
        | Some (JString text) =>
            match trim text with
            | [] => Throw (JsError (lit "No name suggestion returned"))
            | c :: r => Return (c :: r)
            end
        | Some _ => Throw (TypeError env NotCallable)
        end
    end.
Proof.
  intros Hc Hdata. unfold describeImage, suggested_name. rewrite Hc. simpl.
  destruct data; try done;
    (destruct (reported_error _); [done|]);
    destruct (first_content _) as [[| | |text| |]|]; try done;
    by destruct (trim text).
Qed.

Lemma describeImage_throws (env : task_env) (e : exn) :
  describeImage env = Throw e ↔ describe_failure env e.
Proof.
  split.
  - destruct (completion env) as [e'|[|] statusText [e'|data]] eqn:Hc.
    + unfold describeImage. rewrite Hc. intros [= <-]. by apply fail_fetch.
    + unfold describeImage. rewrite Hc. intros [= <-]. by eapply fail_body.
    + destruct (json_null_or_not data) as [->|Hdata].
      { unfold describeImage. rewrite Hc. intros [= <-]. by eapply fail_null. }
      rewrite (describeImage_parsed env statusText data Hc Hdata).
      destruct (reported_error data) as [err|] eqn:Herr.
      * apply reported_error_Some in Herr as [Hget Htruthy].
        destruct (template _) as [text|] eqn:Htext; intros [= <-].
        -- by eapply fail_api.
        -- by eapply fail_api_message.
      * destruct (first_content data) as [value|] eqn:Hvalue.
        2:{ intros [= <-]. eapply fail_empty; eauto. }
        destruct value as [|b|z shown|text|items|fields].
        -- intros [= <-]. eapply fail_empty; eauto.
        -- intros [= <-]. by eapply fail_content.
        -- intros [= <-]. by eapply fail_content.
        -- destruct (trim text) eqn:Htrim; [|done].
           intros [= <-]. eapply fail_empty; eauto 6.
        -- intros [= <-]. by eapply fail_content.
        -- intros [= <-]. by eapply fail_content.
    + unfold describeImage. rewrite Hc. intros [= <-]. by eapply fail_status.
    + unfold describeImage. rewrite Hc. intros [= <-]. by eapply fail_status.
  - intros [e' Hc|statusText body Hc|statusText e' Hc|statusText Hc
            |statusText data err text Hc Hdata Hget Htruthy Htext
            |statusText data err Hc Hdata Hget Htruthy Htext
            |statusText data value Hc Hdata Herr Hvalue Hnull Hstring
            |statusText data Hc Hdata Herr Hempty];
      try (unfold describeImage; rewrite Hc; done).
    + rewrite (describeImage_parsed env statusText data Hc Hdata).
      rewrite (proj2 (reported_error_Some data err)) by done. by rewrite Htext.
    + rewrite (describeImage_parsed env statusText data Hc Hdata).
      rewrite (proj2 (reported_error_Some data err)) by done. by rewrite Htext.
    + rewrite (describeImage_parsed env statusText data Hc Hdata), Herr, Hvalue.
      destruct value; try done. by destruct (Hstring s).
    + rewrite (describeImage_parsed env statusText data Hc Hdata), Herr.
      destruct Hempty as [->|[->|(text & -> & ->)]]; done.
Qed.

Lemma describeImage_returns (env : task_env) (s : jsstr) :
  describeImage env = Return s
  ↔ ∃ statusText data text,
      completion env = FetchResponse true statusText (JsonParsed data)
      ∧ data ≠ JNull
      ∧ reported_error data = None
      ∧ first_content data = Some (JString text)
      ∧ trim text ≠ []
      ∧ s = trim text.
Proof.
  split.
  - destruct (completion env) as [e'|[|] statusText [e'|data]] eqn:Hc;
      try (unfold describeImage; rewrite Hc; done).
    destruct (json_null_or_not data) as [->|Hdata];
      [unfold describeImage; rewrite Hc; done|].
    rewrite (describeImage_parsed env statusText data Hc Hdata).
    destruct (reported_error data) as [err|] eqn:Herr;
      [by destruct (template _)|].
    destruct (first_content data) as [[| | |text| |]|] eqn:Hvalue; try done.
    destruct (trim text) eqn:Htrim; [done|].
    intros [= <-]. exists statusText, data, text. by rewrite Htrim.
  - intros (statusText & data & text & Hc & Hdata & Herr & Hvalue & Hne & ->).
    rewrite (describeImage_parsed env statusText data Hc Hdata), Herr, Hvalue.
    by destruct (trim text).
Qed.

Lemma getImageName_run (env : task_env) (imagePath model : jsstr) (fs : FS) :
  getImageName env imagePath model fs
  = match preprocessImage env imagePath fs with
    | None => None
    | Some (Throw e, fs1) => Some (Throw e, fs1)
    | Some (Return _, fs1) => Some (describeImage env, fs1)
    end.
Proof. reflexivity. Qed.

(** C6, as the code has it.  Once preprocessing has succeeded,
    [getImageName] ends with the outcome of its request, which fails
    exactly in these cases, each with its own thrown value: [fetch]
    rejects; the status is not 2xx (["API request failed: ..."]); the body
    of a 2xx response cannot be read as JSON (the rejection of
    [response.json()] goes through unchanged); the body is [null] (a
    [TypeError]); the body has a truthy [error] member (["LM Studio error:
    ..."], or a [TypeError] when the message cannot be put in a string);
    the content of the first choice is there but is no string (a
    [TypeError]: it has no [trim]); that content is absent, [null] or
    trims to the empty string (["No name suggestion returned"]).  In every
    other case it returns the content of the first choice, trimmed and
    otherwise untouched. *)
Theorem getImageName_outcomes (env : task_env) (imagePath model : jsstr)
    (fs fs1 : FS) (processed : bytes) :
  preprocessImage env imagePath fs = Some (Return processed, fs1) →
  getImageName env imagePath model fs = Some (describeImage env, fs1)
  ∧ (∀ e, describeImage env = Throw e ↔ describe_failure env e)
  ∧ (∀ s, describeImage env = Return s
          ↔ ∃ statusText data text,
              completion env = FetchResponse true statusText (JsonParsed data)
              ∧ data ≠ JNull
              ∧ reported_error data = None
              ∧ first_content data = Some (JString text)
              ∧ trim text ≠ []
              ∧ s = trim text).
Proof.
  intros Hpre. split; [by rewrite getImageName_run, Hpre|].
  split; [intros e; apply describeImage_throws|].
  intros s; apply describeImage_returns.
Qed.

(** The model answers ["cat"]. *)
Lemma getImageName_cat :
  getImageName cat_env (lit "/d/cat.jpg") (lit "llava") cat_fs
  = Some (Return (lit "cat"), cat_fs).
Proof.
  destruct (getImageName_outcomes cat_env (lit "/d/cat.jpg") (lit "llava") cat_fs
              cat_fs [Byte.xff; Byte.xd8]) as (Hrun & _ & Hreturns).
  { vm_compute. reflexivity. }
  assert (describeImage cat_env = Return (lit "cat")) as Hr.
  { apply Hreturns. do 3 eexists. split; [reflexivity|].
    split; [discriminate|]. split; [reflexivity|]. split; [reflexivity|].
    split; [vm_compute; discriminate | vm_compute; reflexivity]. }
  rewrite Hrun, Hr. reflexivity.
Defined.

(** C6 as the spec states it fails, in two ways.  Preprocessing succeeds
    and the server answers 200 with a body that is not JSON:
    [getImageName] fails with the parser's error.  Or the body is JSON and
    its first choice carries a number where the text should be: the call
    of its [trim] is a [TypeError].  Neither is one of the three listed
    failures. *)
Lemma getImageName_unlisted_failure :
  preprocessImage html_env (lit "/d/cat.jpg") cat_fs
  = Some (Return [Byte.xff; Byte.xd8], cat_fs)
  ∧ getImageName html_env (lit "/d/cat.jpg") (lit "llava") cat_fs
    = Some (Throw (JsError (lit "Unexpected token < in JSON at position 0")),
            cat_fs)
  ∧ ¬ listed_failure (completion html_env)
  ∧ preprocessImage number_env (lit "/d/cat.jpg") cat_fs
    = Some (Return [Byte.xff; Byte.xd8], cat_fs)
  ∧ getImageName number_env (lit "/d/cat.jpg") (lit "llava") cat_fs
    = Some (Throw (JsError (lit "data.choices?.[0]?.message?.content?.trim is not a function")),
            cat_fs)
  ∧ ¬ listed_failure (completion number_env).
Proof.
  split; [vm_compute; reflexivity|]. split; [vm_compute; reflexivity|].
  split; [intros Hlisted; inversion Hlisted|].
  split; [vm_compute; reflexivity|]. split; [vm_compute; reflexivity|].
  intros Hlisted. inversion Hlisted as [| |? ? ? ? Hget|? ? ? Hempty]; subst.
  - vm_compute in Hget. discriminate.
  - vm_compute in Hempty.
    destruct Hempty as [?|[?|(text & ? & _)]]; discriminate.
Qed.

(** A body that is [null] fails on the read of [data.error]. *)
Example getImageName_null_body :
  describeImage
    (at_time 0 (FetchResponse true (lit "OK") (JsonParsed JNull)) cat_env)
  = Throw (JsError (lit "Cannot read properties of null (reading 'error')")).
Proof. reflexivity. Qed.

(** An [error] member that is there but falsy is no failure. *)
Example getImageName_null_error :
  describeImage
    (at_time 0
       (FetchResponse true (lit "OK")
          (JsonParsed
             (JObject
                [ (lit "error", JNull);
                  (lit "choices",
                   JArray [ JObject [ (lit "message",
                                       JObject [ (lit "content",
                                                  JString (lit " cat ")) ]) ] ]) ])))
       cat_env)
  = Return (lit "cat").
Proof. reflexivity. Qed.

(** The suggestion is only trimmed: characters that [sanitizeFilename]
    would remove are still there. *)
Example describeImage_not_sanitized :
  describeImage (at_time 0 (completion_with (lit "  Red Barn!  ")) cat_env)
  = Return (lit "Red Barn!").
Proof. reflexivity. Qed.

End Client.

(** ** The reachability probe *)

Section Probe.

(** C7.  [checkServerConnection] always returns a boolean and never
    throws, whatever the preferences and the network do; the boolean is
    [true] exactly when the probe gets a response with a 2xx status before
    the 5000 ms timer fires. *)
Theorem checkServerConnection_never_throws (env : probe_env) :
  ∃ b : bool,
    checkServerConnection env = Return b
    ∧ (b = true
       ↔ ∃ base t,
           getBaseUrl env = Return base
           ∧ network env (base ++ lit "/v1/models") = Responds t true
           ∧ t < 5000).
Proof.
  unfold checkServerConnection.
  destruct (getBaseUrl env) as [e|base] eqn:Hurl.
  { exists false. split; [done|]. split; [done|]. by intros (? & ? & ? & _). }
  destruct (network env (base ++ lit "/v1/models")) as [t ok|t e|] eqn:Hnet; simpl.
  - unfold PROBE_TIMEOUT_MS. destruct (N.ltb_spec t 5000) as [Hlt|Hge].
    + exists ok. split; [done|]. split.
      * intros ->. by exists base, t.
      * intros (base' & t' & [= <-] & Hnet' & _). congruence.
    + exists false. split; [done|]. split; [done|].
      intros (base' & t' & [= <-] & Hnet' & Hlt). rewrite Hnet in Hnet'.
      injection Hnet' as <- _. lia.
  - exists false. split; [by destruct (t <? PROBE_TIMEOUT_MS)|]. split; [done|].
    intros (base' & t' & [= <-] & Hnet' & _). congruence.
  - exists false. split; [done|]. split; [done|].
    intros (base' & t' & [= <-] & Hnet' & _). congruence.
Qed.

End Probe.

(** ** The rename orchestrator *)

Section Orchestrator.

Lemma no_slash_until_slash (s : jsstr) : no_slash (path.until_slash s) = true.
Proof.
  induction s as [|c r IH]; [done|]. simpl.
  destruct (c =? SLASH) eqn:Hc; [done|]. simpl. by rewrite Hc, IH.
Qed.

Lemma no_slash_basename (p : jsstr) : no_slash (path.basename p) = true.
Proof. unfold path.basename. rewrite no_slash_rev. apply no_slash_until_slash. Qed.

Lemma no_slash_until_dot (s : jsstr) : no_slash s = true → no_slash (path.until_dot s) = true.
Proof.
  induction s as [|c r IH]; [done|]. simpl.
  intros [Hc Hr]%andb_true_iff. destruct (c =? DOT); [done|].
  simpl. by rewrite Hc, IH.
Qed.

Lemma no_slash_extname (p : jsstr) : no_slash (path.extname p) = true.
Proof.
  unfold path.extname.
  destruct (path.from_dot _) as [|c stem]; [done|].
  destruct (bool_decide (stem = [])); [done|].
  destruct (_ && _); [done|].
  change (no_slash (DOT :: ?s)) with (no_slash s).
  rewrite no_slash_rev. apply no_slash_until_dot.
  rewrite no_slash_rev. apply no_slash_basename.
Qed.

Lemma no_slash_lower_char (s : jsstr) :
  no_slash s = true → no_slash (List.map lower_char s) = true.
Proof.
  induction s as [|c r IH]; [done|]. simpl.
  intros [Hc Hr]%andb_true_iff. rewrite (IH Hr), andb_true_r.
  apply negb_true_iff, N.eqb_neq in Hc. apply negb_true_iff, N.eqb_neq.
  unfold lower_char, SLASH in *.
  destruct ((65 <=? c) && (c <=? 90)) eqn:E; [|done].
  apply andb_true_iff in E as [?%N.leb_le ?%N.leb_le]. lia.
Qed.

Lemma no_slash_toLowerCase (L : lowering) (s : jsstr) :
  no_slash s = true → no_slash (toLowerCase L s) = true.
Proof.
  intros Hs. unfold toLowerCase.
  destruct (is_ascii s); [by apply no_slash_lower_char | by apply lower_text_no_slash].
Qed.

Lemma no_slash_sanitizeFilename (s : jsstr) : no_slash (sanitizeFilename s) = true.
Proof.
  pose proof (sanitizeFilename_chars s) as H.
  induction H as [|c r Hc _ IH]; [done|]. simpl. rewrite IH, andb_true_r.
  apply negb_true_iff, N.eqb_neq. intros ->. vm_compute in Hc. discriminate.
Qed.

(** [renameImage], flattened: preprocessing first, then the rest. *)
Lemma renameImage_run (fuel : nat) (env : task_env) (imagePath model : jsstr) (fs : FS) :
  renameImage fuel env imagePath model fs
  = match preprocessImage env imagePath fs with
    | None => None
    | Some (r, fs1) => rename_after fuel env imagePath r fs1
    end.
Proof.
  unfold renameImage, rename_after, try_catch. cbn zeta.
  unfold mbind at 1. unfold M_bind at 1. rewrite getImageName_run.
  destruct (preprocessImage env imagePath fs) as [[[e|processed] fs1]|]; [done| |done].
  unfold lift_result.
  destruct (describeImage env) as [e|suggestedName]; [done|].
  destruct (bool_decide (sanitizeFilename suggestedName = [])); [done|].
  destruct (getUniqueFilename _ _ _ _ _) as [newPath|]; [|done].
  destruct (bool_decide (path.basename imagePath = path.basename newPath)) eqn:Hsame.
  { apply bool_decide_eq_true in Hsame. unfold unchanged. by rewrite <- Hsame. }
  unfold mbind, M_bind, renameSync, mret, M_ret.
  destruct (rename_failure env) as [e|]; [done|].
  by destruct (fs1 !! imagePath).
Qed.

(** Two probes beyond the number of files are enough for the resolver. *)
Lemma renameImage_fuel (env : task_env) (imagePath suggestedName : jsstr)
    (fs1 : FS) (fuel : nat) :
  (2 ≤ fuel)%nat →
  ∃ newPath,
    getUniqueFilename (fuel + size fs1) fs1
      (path.dirname imagePath) (sanitizeFilename suggestedName)
      (toLowerCase (case_mapping env) (path.extname imagePath)) = Some newPath
    ∧ exists_in fs1 newPath = false.
Proof.
  intros Hfuel.
  destruct (getUniqueFilename_finite fs1
              (path.dirname imagePath) (sanitizeFilename suggestedName)
              (toLowerCase (case_mapping env) (path.extname imagePath)))
    as (m & Hm & Hrun).
  - apply no_slash_sanitizeFilename.
  - apply no_slash_toLowerCase, no_slash_extname.
  - eexists. split; [apply Hrun; lia|].
    eapply (loop_sound _ _ _ _ (fuel + size fs1) 0). apply Hrun. lia.
Qed.

(** The three ways [renameImage] ends, with the file system it leaves:
    the one preprocessing left, but for a rename. *)
Lemma rename_after_shapes (fuel : nat) (env : task_env) (imagePath : jsstr)
    (rp : result bytes) (fs1 : FS) :
  (2 ≤ fuel)%nat →
  ∃ r fs',
    rename_after fuel env imagePath rp fs1 = Some (Return r, fs')
    ∧ ((∃ message, r = failed (path.basename imagePath) message ∧ fs' = fs1)
       ∨ (r = unchanged (path.basename imagePath) ∧ fs' = fs1)
       ∨ (∃ newPath data,
            r = renamed (path.basename imagePath) (path.basename newPath)
            ∧ path.basename newPath ≠ path.basename imagePath
            ∧ fs1 !! imagePath = Some data
            ∧ fs1 !! newPath = None
            ∧ fs' = <[newPath := data]> (delete imagePath fs1))).
Proof.
  intros Hfuel. unfold rename_after. cbn zeta.
  destruct rp as [e|processed]; [by eauto 10|].
  destruct (describeImage env) as [e|suggestedName]; [by eauto 10|].
  destruct (bool_decide (sanitizeFilename suggestedName = [])); [by eauto 10|].
  destruct (renameImage_fuel env imagePath suggestedName fs1 fuel Hfuel)
    as (newPath & -> & Hfree).
  destruct (bool_decide (path.basename imagePath = path.basename newPath)) eqn:Hsame;
    [by eauto 10|].
  apply bool_decide_eq_false in Hsame.
  destruct (rename_failure env) as [e|]; [by eauto 10|].
  destruct (fs1 !! imagePath) as [data|] eqn:Himage; [|by eauto 10].
  do 2 eexists. split; [done|]. right. right. exists newPath, data.
  split; [done|]. split; [congruence|]. split; [done|]. split; [|done].
  unfold exists_in in Hfree. by destruct (fs1 !! newPath).
Qed.

Lemma renameImage_shapes (fuel : nat) (env : task_env) (imagePath model : jsstr) (fs : FS) :
  (2 ≤ fuel)%nat →
  ∃ rp fs1 r fs',
    preprocessImage env imagePath fs = Some (rp, fs1)
    ∧ renameImage fuel env imagePath model fs = Some (Return r, fs')
    ∧ rename_after fuel env imagePath rp fs1 = Some (Return r, fs')
    ∧ ((∃ message, r = failed (path.basename imagePath) message ∧ fs' = fs1)
       ∨ (r = unchanged (path.basename imagePath) ∧ fs' = fs1)
       ∨ (∃ newPath data,
            r = renamed (path.basename imagePath) (path.basename newPath)
            ∧ path.basename newPath ≠ path.basename imagePath
            ∧ fs1 !! imagePath = Some data
            ∧ fs1 !! newPath = None
            ∧ fs' = <[newPath := data]> (delete imagePath fs1))).
Proof.
  intros Hfuel.
  destruct (preprocessImage_total env imagePath fs) as (rp & fs1 & Hpre).
  destruct (rename_after_shapes fuel env imagePath rp fs1 Hfuel)
    as (r & fs' & Hrun & Hshape).
  exists rp, fs1, r, fs'. split; [done|]. split; [|done].
  by rewrite renameImage_run, Hpre.
Qed.




(** A command substitution can as well remove a file that is no part of
    the task. *)
Example renameImage_shell_injection :
  ∃ message,
    renameImage 3 injected_env injected_path (lit "llava") injected_fs
    = Some (Return (failed (lit "b.png).png") message),
            {[ injected_path := jpeg ]}).
Proof. eexists. vm_compute. reflexivity. Qed.

(** C1 fails on the code.  [/d/cat.jpg] exists and the model suggests
    ["cat"], which with the extension is the current name; the image's own
    path makes [cat.jpg] taken for [getUniqueFilename], so the file is
    renamed to [cat_1.jpg] and the result is an ordinary success, without
    the note ["Name unchanged"]. *)
Theorem renameImage_same_name_renames :
  exists_in cat_fs (lit "/d/cat.jpg") = true
  ∧ describeImage cat_env = Return (lit "cat")
  ∧ sanitizeFilename (lit "cat")
    ++ toLowerCase (case_mapping cat_env) (path.extname (lit "/d/cat.jpg"))
    = path.basename (lit "/d/cat.jpg")
  ∧ renameImage 2 cat_env (lit "/d/cat.jpg") (lit "llava") cat_fs
    = Some (Return {| RenameResult.success := true;
                      RenameResult.oldName := lit "cat.jpg";
                      RenameResult.newName := Some (lit "cat_1.jpg");
                      RenameResult.error := None |},
            {[ lit "/d/cat_1.jpg" := jpeg ]}).
Proof. repeat split; vm_compute; reflexivity. Qed.

End Orchestrator.

(** ** The batch runner *)

Section BatchRunner.

Context (fuel : nat) (model : jsstr).

Lemma renameImage_returns (env : task_env) (imagePath : jsstr) (fs : FS) :
  (2 ≤ fuel)%nat →
  ∃ r fs',
    renameImage fuel env imagePath model fs = Some (Return r, fs')
    ∧ RenameResult.oldName r = path.basename imagePath
    ∧ outcome_shape r.
Proof.
  intros Hfuel.
  destruct (renameImage_shapes fuel env imagePath model fs Hfuel)
    as (rp & fs1 & r & fs' & _ & Hrun & _ & Hshape).
  exists r, fs'. split; [done|].
  destruct Hshape as [(message & -> & _)|[[-> _]|(newPath & data & -> & _)]].
  - split; [done|]. left. by eexists.
  - split; [done|]. right. by left.
  - split; [done|]. right. right. by eexists.
Qed.


Lemma processImages_loop_cons (envs : nat → task_env) (task : ImageFile.t)
    (rest : list ImageFile.t) (i : nat) (st : batch) (fs : FS) :
  processImages_loop fuel envs model (task :: rest) i st fs
  = match renameImage fuel (envs i) (ImageFile.path task) model fs with
    | None => None
    | Some (Throw e, fs') => Some (Throw e, fs')
    | Some (Return r, fs') =>
        processImages_loop fuel envs model rest (S i) (next_state i st r) fs'
    end.
Proof. reflexivity. Qed.

Lemma processImages_loop_app (envs : nat → task_env) (before after : list ImageFile.t) :
  ∀ (i : nat) (st : batch) (fs : FS),
    processImages_loop fuel envs model (before ++ after) i st fs
    = match processImages_loop fuel envs model before i st fs with
      | Some (Return st', fs') =>
          processImages_loop fuel envs model after (i + length before) st' fs'
      | other => other
      end.
Proof.
  induction before as [|task rest IH]; intros i st fs.
  - simpl. unfold mret, M_ret. by rewrite Nat.add_0_r.
  - change ((task :: rest) ++ after) with (task :: (rest ++ after)).
    rewrite !processImages_loop_cons.
    destruct (renameImage _ _ _ _ _) as [[[e|r] fs']|]; [done| |done].
    rewrite IH.
    by replace (i + length (task :: rest))%nat with (S i + length rest)%nat
      by (simpl; lia).
Qed.

(** The loop from index [i]: what it appends and what it leaves alone. *)
Lemma processImages_loop_spec (envs : nat → task_env) (remaining : list ImageFile.t) :
  ∀ (i : nat) (st : batch) (fs : FS),
    (2 ≤ fuel)%nat →
    (i + length remaining ≤ length (results st))%nat →
    ∃ new st' fs',
      processImages_loop fuel envs model remaining i st fs = Some (Return st', fs')
      ∧ outcomes st' = outcomes st ++ new
      ∧ length new = length remaining
      ∧ successCount st'
        = (successCount st + length (List.filter RenameResult.success new))%nat
      ∧ length (results st') = length (results st)
      ∧ Forall outcome_shape new
      ∧ (∀ j, (j < i)%nat → results st' !! j = results st !! j)
      ∧ (∀ j task, remaining !! j = Some task →
           ∃ r, new !! j = Some r
                ∧ results st' !! (i + j)%nat = Some (display r)
                ∧ RenameResult.oldName r = path.basename (ImageFile.path task)).
Proof.
  induction remaining as [|task rest IH]; intros i st fs Hfuel Hrange.
  - exists [], st, fs. rewrite app_nil_r. repeat split; try done; simpl; lia.
  - rewrite processImages_loop_cons.
    destruct (renameImage_returns (envs i) (ImageFile.path task) fs Hfuel)
      as (r & fs1 & -> & Hold & Hshape).
    simpl in Hrange.
    destruct (IH (S i) (next_state i st r) fs1) as
      (new & st' & fs' & -> & Hout & Hlen & Hcount & Hres & Hshapes
       & Hkeep & Htasks).
    { done. }
    { simpl. rewrite length_insert, length_alter. lia. }
    exists (r :: new), st', fs'. split; [done|].
    split; [by rewrite Hout; simpl; rewrite <- app_assoc|].
    split; [simpl; lia|].
    split; [rewrite Hcount; simpl; destruct (RenameResult.success r); simpl; lia|].
    split; [by rewrite Hres; simpl; rewrite length_insert, length_alter|].
    split; [by constructor|].
    split.
    + intros j Hj. rewrite Hkeep by lia. simpl.
      rewrite list_lookup_insert_ne by lia. by rewrite list_lookup_alter_ne by lia.
    + intros [|j] task' Htask'.
      * injection Htask' as <-. exists r. split; [done|]. split; [|done].
        rewrite Nat.add_0_r, Hkeep by lia. simpl.
        apply list_lookup_insert_eq. rewrite length_alter. lia.
      * destruct (Htasks j task' Htask') as (r' & Hr' & Hshown & Hold').
        exists r'. split; [done|]. split; [|done].
        by replace (i + S j)%nat with (S i + j)%nat by lia.
Qed.

Lemma length_initial_results (images : list ImageFile.t) :
  length (initial_results images) = length images.
Proof. apply length_map. Qed.

Lemma count_by_shape (l : list RenameResult.t) :
  Forall outcome_shape l →
  length (List.filter RenameResult.success l)
  = (length (List.filter is_renamed l) + length (List.filter is_unchanged l))%nat.
Proof.
  induction 1 as [|r l Hr _ IH]; [done|]. cbn [List.filter].
  destruct Hr as [[message ->]|[->|[newName ->]]]; simpl; lia.
Qed.

Lemma processImages_loop_beyond (envs : nat → task_env) (remaining : list ImageFile.t) :
  ∀ (i : nat) (st st' : batch) (fs fs' : FS),
    processImages_loop fuel envs model remaining i st fs = Some (Return st', fs') →
    ∀ j, (i + length remaining ≤ j)%nat → results st' !! j = results st !! j.
Proof.
  induction remaining as [|task rest IH]; intros i st st' fs fs' Hrun j Hj.
  - by injection Hrun as <- <-.
  - rewrite processImages_loop_cons in Hrun. simpl in Hj.
    destruct (renameImage _ _ _ _ _) as [[[e|r] fs1]|]; [done| |done].
    rewrite (IH _ _ _ _ _ Hrun) by lia. simpl.
    rewrite list_lookup_insert_ne by lia. by rewrite list_lookup_alter_ne by lia.
Qed.

Lemma completed_display (r : RenameResult.t) : completed (display r) = true.
Proof.
  unfold display. destruct (RenameResult.success r); [|done].
  by destruct (bool_decide _).
Qed.

Lemma shown_as_done_display (r : RenameResult.t) :
  shown_as_done (display r) = RenameResult.success r.
Proof.
  unfold display. destruct (RenameResult.success r); [|done].
  by destruct (bool_decide _).
Qed.

Lemma filter_display (l : list RenameResult.t) :
  List.filter completed (display <$> l) = display <$> l
  ∧ length (List.filter shown_as_done (display <$> l))
    = length (List.filter RenameResult.success l).
Proof.
  induction l as [|r l [IH1 IH2]]; [done|]. cbn [fmap list_fmap List.filter].
  rewrite completed_display, shown_as_done_display. split.
  - f_equal. exact IH1.
  - destruct (RenameResult.success r); simpl; by rewrite IH2.
Qed.

(** The state after the first [k] tasks. *)
Lemma processImages_prefix (envs : nat → task_env) (images : list ImageFile.t)
    (fs : FS) (k : nat) :
  (2 ≤ fuel)%nat → (k ≤ length images)%nat →
  ∃ st fs',
    processImages_loop fuel envs model (take k images) 0 (initial_state images) fs
    = Some (Return st, fs')
    ∧ length (outcomes st) = k
    ∧ results st = (display <$> outcomes st) ++ drop k (initial_results images)
    ∧ successCount st = length (List.filter RenameResult.success (outcomes st))
    ∧ Forall outcome_shape (outcomes st).
Proof.
  intros Hfuel Hk.
  destruct (processImages_loop_spec envs (take k images) 0
              (initial_state images) fs Hfuel)
    as (new & st & fs' & Hrun & Hout & Hlen & Hcount & Hres & Hshapes & _ & Htasks).
  { simpl. rewrite length_initial_results, length_take. lia. }
  simpl in Hout, Hcount, Hres. rewrite length_take_le in Hlen by lia.
  exists st, fs'. split; [done|]. rewrite Hout. split; [done|].
  split; [|done]. apply list_eq. intros j.
  destruct (decide (j < k)%nat) as [Hj|Hj].
  - rewrite lookup_app_l by (rewrite length_fmap; lia).
    destruct (lookup_lt_is_Some_2 (take k images) j) as [task Htask];
      [rewrite length_take; lia|].
    destruct (Htasks j task Htask) as (r & Hr & Hshown & _).
    simpl in Hshown. by rewrite Hshown, list_lookup_fmap, Hr.
  - rewrite (processImages_loop_beyond _ _ _ _ _ _ _ Hrun)
      by (rewrite length_take; simpl; lia).
    rewrite lookup_app_r by (rewrite length_fmap; lia).
    rewrite length_fmap, Hlen, lookup_drop. simpl. f_equal. lia.
Qed.

(** The whole batch. *)
Lemma processImages_whole (envs : nat → task_env) (images : list ImageFile.t) (fs : FS) :
  (2 ≤ fuel)%nat →
  ∃ st fs',
    processImages fuel envs model images fs = Some (Return st, fs')
    ∧ length (outcomes st) = length images
    ∧ results st = display <$> outcomes st
    ∧ successCount st = length (List.filter RenameResult.success (outcomes st))
    ∧ Forall outcome_shape (outcomes st).
Proof.
  intros Hfuel.
  destruct (processImages_prefix envs images fs (length images) Hfuel (le_n _))
    as (st & fs' & Hrun & Hlen & Hres & Hcount & Hshapes).
  rewrite take_ge in Hrun by done.
  rewrite drop_ge, app_nil_r in Hres by (by rewrite length_initial_results).
  by exists st, fs'.
Qed.

(** The task at index [k] of a batch: [renameImage] is run on it, on the
    file system its predecessors left, and its result is the outcome at
    index [k]. *)
Lemma processImages_task (envs : nat → task_env) (images : list ImageFile.t)
    (fs fs' : FS) (st : batch) (k : nat) (task : ImageFile.t) :
  (2 ≤ fuel)%nat →
  processImages fuel envs model images fs = Some (Return st, fs') →
  images !! k = Some task →
  ∃ st_k fs_k r fs_k',
    processImages_loop fuel envs model (take k images) 0 (initial_state images) fs
    = Some (Return st_k, fs_k)
    ∧ renameImage fuel (envs k) (ImageFile.path task) model fs_k
      = Some (Return r, fs_k')
    ∧ processImages_loop fuel envs model (take (S k) images) 0
        (initial_state images) fs
      = Some (Return (next_state k st_k r), fs_k')
    ∧ processImages_loop fuel envs model (drop (S k) images) (S k)
        (next_state k st_k r) fs_k'
      = Some (Return st, fs')
    ∧ length (outcomes st_k) = k
    ∧ outcomes st !! k = Some r
    ∧ results st !! k = Some (display r)
    ∧ RenameResult.oldName r = path.basename (ImageFile.path task).
Proof.
  intros Hfuel Hrun Htask.
  change (processImages fuel envs model images)
    with (processImages_loop fuel envs model images 0 (initial_state images)) in Hrun.
  pose proof (lookup_lt_Some _ _ _ Htask) as Hk.
  destruct (processImages_prefix envs images fs k Hfuel) as
    (st_k & fs_k & Hrun_k & Hlen_k & Hres_k & _); [lia|].
  destruct (renameImage_returns (envs k) (ImageFile.path task) fs_k Hfuel)
    as (r & fs_k' & Hrename & Hold & _).
  assert (processImages_loop fuel envs model (take (S k) images) 0
            (initial_state images) fs
          = Some (Return (next_state k st_k r), fs_k')) as Hrun_Sk.
  { rewrite (take_S_r images k task Htask), processImages_loop_app, Hrun_k.
    rewrite length_take_le by lia. change (0 + k)%nat with k.
    rewrite processImages_loop_cons, Hrename. reflexivity. }
  pose proof (processImages_loop_app envs (take (S k) images) (drop (S k) images)
                0 (initial_state images) fs) as Happ.
  rewrite take_drop, Hrun, Hrun_Sk, length_take_le in Happ by lia.
  change (0 + S k)%nat with (S k) in Happ. symmetry in Happ.
  destruct (processImages_loop_spec envs (drop (S k) images) (S k)
              (next_state k st_k r) fs_k' Hfuel)
    as (new_r & st_r & fs_r & Hrun_r & Hout_r & _ & _ & _ & _ & Hkeep_r & _).
  { simpl. rewrite length_insert, length_alter, Hres_k, length_drop.
    rewrite length_app, length_fmap, length_drop, length_initial_results. lia. }
  rewrite Hrun_r in Happ. injection Happ as <- <-.
  exists st_k, fs_k, r, fs_k'.
  split; [done|]. split; [done|]. split; [done|]. split; [done|]. split; [done|].
  split; [|split; [|done]].
  - rewrite Hout_r. simpl. rewrite <- app_assoc.
    rewrite lookup_app_r by lia. by rewrite Hlen_k, Nat.sub_diag.
  - rewrite Hkeep_r by lia. simpl. apply list_lookup_insert_eq.
    rewrite length_alter, Hres_k, length_app, length_fmap, length_drop,
      length_initial_results. lia.
Qed.




(** C8.  The final tally: every task has its outcome, which is the result
    of [renameImage] on that task, and [successCount] is the number of
    those outcomes with [success = true], which is the number of genuine
    renames plus the number of unchanged names, and the number of rows the
    view shows as renamed or as skipped; the total is the number of
    tasks. *)
Theorem processImages_tally (envs : nat → task_env)
    (images : list ImageFile.t) (fs : FS) :
  (2 ≤ fuel)%nat →
  ∃ st fs',
    processImages fuel envs model images fs = Some (Return st, fs')
    ∧ tally images st
      = (length (List.filter RenameResult.success (outcomes st)), length images)
    ∧ length (outcomes st) = length images
    ∧ (∀ k task, images !! k = Some task →
         ∃ st_k fs_k r fs_k',
           processImages_loop fuel envs model (take k images) 0
             (initial_state images) fs = Some (Return st_k, fs_k)
           ∧ renameImage fuel (envs k) (ImageFile.path task) model fs_k
             = Some (Return r, fs_k')
           ∧ outcomes st !! k = Some r
           ∧ results st !! k = Some (display r))
    ∧ results st = display <$> outcomes st
    ∧ successCount st
      = (length (List.filter is_renamed (outcomes st))
         + length (List.filter is_unchanged (outcomes st)))%nat
    ∧ successCount st = length (List.filter shown_as_done (results st))
    ∧ toast_message images st
      = lit "Renamed "
        ++ dec (length (List.filter RenameResult.success (outcomes st)))
        ++ lit " of " ++ dec (length images) ++ lit " images".
Proof.
  intros Hfuel.
  destruct (processImages_whole envs images fs Hfuel)
    as (st & fs' & Hrun & Hlen & Hres & Hcount & Hshapes).
  exists st, fs'. split; [done|]. unfold tally, toast_message. rewrite Hcount.
  split; [done|]. split; [done|]. split.
  { intros k task Htask.
    destruct (processImages_task envs images fs fs' st k task Hfuel Hrun Htask)
      as (st_k & fs_k & r & fs_k' & Hrun_k & Hrename & _ & _ & _ & Hout & Hshown & _).
    by exists st_k, fs_k, r, fs_k'. }
  split; [done|]. split; [by apply count_by_shape|]. split; [|done].
  by rewrite Hres, (proj2 (filter_display _)).
Qed.

End BatchRunner.

Section BatchRuns.

(** The server is down for [a.png] and answers for [b.png]: the first task
    fails and keeps its file, the second one is renamed all the same. *)
Example processImages_down_then_up :
  processImages 4 down_then_up (lit "llava") two_images two_images_fs
  = Some (Return
            {| results :=
                 [ ProcessingResult.Build_t (lit "a.png") None Status.error
                     (Some (lit "fetch failed"));
                   ProcessingResult.Build_t (lit "b.png") (Some (lit "cat.png"))
                     Status.success None ];
               successCount := 1;
               outcomes := [ failed (lit "a.png") (lit "fetch failed");
                             renamed (lit "b.png") (lit "cat.png") ] |},
          {[ lit "/d/a.png" := jpeg; lit "/d/cat.png" := jpeg ]}).
Proof. vm_compute. reflexivity. Qed.



Lemma processImages_tally_run :
  ∃ st fs',
    processImages 4 down_then_up (lit "llava") two_images two_images_fs
    = Some (Return st, fs')
    ∧ tally two_images st
      = (length (List.filter RenameResult.success (outcomes st)), 2%nat).
Proof.
  destruct (processImages_tally 4 (lit "llava") down_then_up
              two_images two_images_fs)
    as (st & fs' & Hrun & Htally & _).
  { apply le_S, le_S, le_n. }
  exists st, fs'. split; [exact Hrun | exact Htally].
Defined.

End BatchRuns.

(** * Further properties *)

(** ** The name sanitizer, continued *)

Section SanitizerAlgebra.

Lemma whitespace_name_char (c : N) :
  name_char c = true → is_whitespace c = true → c = SPACE.
Proof.
  unfold name_char, is_whitespace, SPACE.
  rewrite !orb_true_iff, !andb_true_iff, !N.leb_le, !N.eqb_eq. lia.
Qed.

Lemma strip_invalid_id (s : jsstr) :
  Forall (λ c, name_char c = true) s → strip_invalid s = s.
Proof.
  intros H. apply forallb_filter_id. by apply forallb_name_char.
Qed.

Lemma collapse_from_id (s : jsstr) :
  Forall (λ c, name_char c = true) s →
  ∀ b, no_double_space s = true →
       (b = true → no_leading_space s = true) →
       collapse_from b s = s.
Proof.
  induction 1 as [|c r Hc _ IH]; intros b Hnd Hlead; [done|].
  cbn [collapse_from]. destruct (is_whitespace c) eqn:Hws.
  - apply whitespace_name_char in Hws as ->; [|done].
    destruct b; [by specialize (Hlead eq_refl)|].
    f_equal. apply IH; [by eapply no_double_space_tail|].
    intros _. destruct r as [|d r']; [done|].
    rewrite no_double_space_cons in Hnd.
    apply andb_true_iff in Hnd as [Hcd _]. unfold no_leading_space.
    by destruct (d =? SPACE).
  - f_equal. apply IH; [by eapply no_double_space_tail | done].
Qed.

Lemma trimStart_id (s : jsstr) :
  Forall (λ c, name_char c = true) s → no_leading_space s = true →
  trimStart s = s.
Proof.
  intros Hs Hlead. destruct Hs as [|c r Hc _]; [done|]. simpl.
  destruct (is_whitespace c) eqn:Hws; [|done].
  apply whitespace_name_char in Hws as ->; done.
Qed.

Lemma trim_id (s : jsstr) :
  Forall (λ c, name_char c = true) s →
  no_leading_space s = true → no_trailing_space s = true →
  trim s = s.
Proof.
  intros Hs Hlead Htrail. unfold trim, trimEnd.
  rewrite (trimStart_id s Hs Hlead), trimStart_id, rev_involutive; [done| |done].
  by apply Forall_rev.
Qed.

Lemma Forall_name_char (s : jsstr) :
  forallb name_char s = true → Forall (λ c, name_char c = true) s.
Proof.
  induction s as [|c r IH]; simpl; [constructor|].
  intros [Hc Hr]%andb_true_iff. constructor; auto.
Qed.

(** X1.  A name that is already clean (characters of [[A-Za-z0-9 _-]]
    only, at most 100 of them, no two consecutive spaces, no space at
    either end) goes through [sanitizeFilename] unchanged. *)
Theorem sanitizeFilename_clean (s : jsstr) :
  clean_name s → sanitizeFilename s = s.
Proof.
  intros (Hre & Hnd & Hlead & Htrail).
  apply andb_true_iff in Hre as [Hchars Hlen].
  apply Forall_name_char in Hchars. apply Nat.leb_le in Hlen.
  unfold sanitizeFilename, substring0, collapse_whitespace.
  rewrite (strip_invalid_id s Hchars), (collapse_from_id s Hchars false Hnd) by done.
  rewrite (trim_id s Hchars Hlead Htrail). by apply take_ge.
Qed.

Lemma sanitizeFilename_clean_underscored :
  sanitizeFilename (lit "sunset_over_mountains") = lit "sunset_over_mountains".
Proof.
  apply sanitizeFilename_clean.
  split; [|split; [|split]]; vm_compute; reflexivity.
Defined.

(** X2.  Sanitizing a sanitized name only trims it (the space a
    truncation may have left at the end goes away), and from then on the
    name is stable. *)
Theorem sanitizeFilename_twice (s : jsstr) :
  sanitizeFilename (sanitizeFilename s) = trim (sanitizeFilename s)
  ∧ sanitizeFilename (sanitizeFilename (sanitizeFilename s))
    = sanitizeFilename (sanitizeFilename s).
Proof.
  destruct (sanitizeFilename_shape s) as (Hre & Hnd & Hlead & _).
  pose proof (sanitizeFilename_chars s) as Hchars.
  pose proof (sanitizeFilename_length s) as Hlen.
  assert (sanitizeFilename (sanitizeFilename s) = trim (sanitizeFilename s)) as Htwice.
  { unfold sanitizeFilename at 1. unfold substring0, collapse_whitespace.
    rewrite (strip_invalid_id _ Hchars), (collapse_from_id _ Hchars false Hnd) by done.
    apply take_ge. destruct (trim_infix (sanitizeFilename s)) as (j & k & ->).
    rewrite length_take, length_drop. lia. }
  split; [done|]. rewrite Htwice. apply sanitizeFilename_clean.
  destruct (trim_infix (sanitizeFilename s)) as (j & k & Hinfix).
  split; [|split; [|split]].
  - rewrite Hinfix. unfold matches_name_regex. apply andb_true_iff. split.
    + by apply forallb_name_char, Forall_take, Forall_drop.
    + apply Nat.leb_le. rewrite length_take, length_drop. lia.
  - rewrite Hinfix. by apply no_double_space_take, no_double_space_drop.
  - pose proof (trim_head (sanitizeFilename s)) as H.
    destruct (trim _) as [|c r]; [done|]. unfold no_leading_space.
    by rewrite (not_whitespace_not_space c H).
  - unfold no_trailing_space. pose proof (trim_rev_head (sanitizeFilename s)) as H.
    destruct (rev (trim _)) as [|c r]; [done|]. unfold no_leading_space.
    by rewrite (not_whitespace_not_space c H).
Qed.

Lemma trimStart_nil (s : jsstr) :
  trimStart s = [] ↔ Forall (λ c, is_whitespace c = true) s.
Proof.
  induction s as [|c r IH]; simpl; [by split; [constructor|]|].
  destruct (is_whitespace c) eqn:Hc.
  - rewrite IH. split; [by constructor | by inversion 1].
  - split; [done|]. inversion 1. congruence.
Qed.

Lemma trim_nil (s : jsstr) :
  trim s = [] ↔ Forall (λ c, is_whitespace c = true) s.
Proof.
  unfold trim, trimEnd. split.
  - intros H. apply (f_equal (@rev N)) in H. rewrite rev_involutive in H.
    simpl in H. apply trimStart_nil, Forall_rev in H.
    rewrite rev_involutive in H. pose proof (trimStart_head s) as Hhead.
    destruct (trimStart s) as [|c r] eqn:E; [by apply trimStart_nil|].
    inversion H. congruence.
  - intros H. apply trimStart_nil in H. by rewrite H.
Qed.

Lemma collapse_whitespace_only (s : jsstr) (b : bool) :
  Forall (λ c, is_whitespace c = true) (collapse_from b s)
  ↔ Forall (λ c, is_whitespace c = true) s.
Proof.
  revert b. induction s as [|c r IH]; intros b; cbn [collapse_from]; [done|].
  destruct (is_whitespace c) eqn:Hc.
  - destruct b.
    + rewrite IH. split; [by constructor | by inversion 1].
    + split.
      * inversion 1; subst. constructor; [done|]. by eapply IH.
      * inversion 1; subst. constructor; [done|]. by apply IH.
  - split; inversion 1; congruence.
Qed.

(** X3.  [sanitizeFilename] returns the empty string, the case
    [renameImage] reports as ["Empty name returned"], exactly when the
    input has no character of [[A-Za-z0-9_-]]: every character is invalid
    or a space. *)
Theorem sanitizeFilename_empty (s : jsstr) :
  sanitizeFilename s = []
  ↔ Forall (λ c, name_char c = true → c = SPACE) s.
Proof.
  assert (Forall (λ c, is_whitespace c = true) (strip_invalid s)
          ↔ Forall (λ c, name_char c = true → c = SPACE) s) as Hstrip.
  { unfold strip_invalid. induction s as [|c r IH]; simpl; [by split; constructor|].
    destruct (name_char c) eqn:Hc.
    - split.
      + inversion 1 as [|? ? Hws Hrest]; subst. constructor; [|by apply IH].
        intros _. by apply whitespace_name_char.
      + inversion 1 as [|? ? Hspace Hrest]; subst. constructor; [|by apply IH].
        by rewrite (Hspace Hc).
    - rewrite IH. split; [|by inversion 1].
      intros H. constructor; [congruence | done]. }
  rewrite <- Hstrip, <- (collapse_whitespace_only _ false), <- trim_nil.
  unfold sanitizeFilename, substring0, collapse_whitespace.
  split; [|by intros ->].
  by destruct (trim _).
Qed.

Lemma collapse_sublist (s : jsstr) :
  Forall (λ c, name_char c = true) s → ∀ b, collapse_from b s `sublist_of` s.
Proof.
  induction 1 as [|c r Hc _ IH]; intros b; cbn [collapse_from]; [done|].
  destruct (is_whitespace c) eqn:Hws.
  - apply whitespace_name_char in Hws as ->; [|done].
    destruct b; [by apply sublist_cons | by apply sublist_skip].
  - by apply sublist_skip.
Qed.

(** X4.  [sanitizeFilename] only deletes: its output is a subsequence of
    its input, so no character is invented, replaced or moved. *)
Theorem sanitizeFilename_sublist (s : jsstr) :
  sanitizeFilename s `sublist_of` s.
Proof.
  unfold sanitizeFilename, substring0.
  destruct (trim_infix (collapse_whitespace (strip_invalid s))) as (j & k & ->).
  etrans; [apply sublist_take|]. etrans; [apply sublist_take|].
  etrans; [apply sublist_drop|].
  etrans; [apply collapse_sublist, strip_invalid_chars|].
  unfold strip_invalid. induction s as [|c r IH]; simpl; [done|].
  destruct (name_char c); [by apply sublist_skip | by apply sublist_cons].
Qed.

End SanitizerAlgebra.

(** ** File names and extensions *)

Section Names.

Lemma until_from_slash (s : jsstr) :
  s = path.until_slash s ++ path.from_slash s
  ∧ (path.from_slash s = [] ∨ ∃ r, path.from_slash s = SLASH :: r).
Proof.
  induction s as [|c r [IH1 IH2]]; simpl; [by split; [|left]|].
  destruct (N.eqb_spec c SLASH) as [->|Hc]; simpl.
  - split; [done|]. right. by eexists.
  - split; [by rewrite <- IH1 | done].
Qed.

(** Every path is its last component after something that is empty or
    ends in a separator. *)
Lemma last_component (p : jsstr) :
  ∃ pre seg, p = pre ++ seg ∧ slash_terminated pre ∧ no_slash seg = true.
Proof.
  destruct (until_from_slash (rev p)) as [Hsplit Hfrom].
  exists (rev (path.from_slash (rev p))), (rev (path.until_slash (rev p))).
  split; [|split].
  - rewrite <- rev_app_distr, <- Hsplit. by rewrite rev_involutive.
  - destruct Hfrom as [->|[r ->]]; [by left|]. right. by exists (rev r).
  - rewrite no_slash_rev. apply no_slash_until_slash.
Qed.

Lemma basename_last_component (pre seg : jsstr) :
  slash_terminated pre → no_slash seg = true → seg ≠ [] →
  path.basename (pre ++ seg) = seg.
Proof.
  intros Hpre Hseg Hne. unfold path.basename. rewrite rev_app_distr.
  rewrite <- no_slash_rev in Hseg.
  destruct (rev seg) as [|c r] eqn:Hrev.
  { apply (f_equal (@rev N)) in Hrev. by rewrite rev_involutive in Hrev. }
  assert ((c =? SLASH) = false) as Hc.
  { simpl in Hseg. apply andb_true_iff in Hseg as [Hc _]. by apply negb_true_iff. }
  assert (path.drop_slashes ((c :: r) ++ rev pre) = (c :: r) ++ rev pre) as ->.
  { simpl. by rewrite Hc. }
  rewrite until_slash_app; [by rewrite <- Hrev, rev_involutive | done |].
  destruct Hpre as [->|[q ->]]; [by left|right].
  rewrite rev_app_distr. by eexists.
Qed.

(** X9.  The name [init] gives an image, the text after the last ["/"] of
    its path or, when that is empty, the whole path, is the
    [path.basename] that [renameImage] reports as [oldName] whenever the
    path does not end in a separator; when it does, the name is the whole
    path. *)
Theorem file_name_basename (p : jsstr) :
  (path.ends_with_slash p = false → file_name p = path.basename p)
  ∧ (path.ends_with_slash p = true → file_name p = p).
Proof.
  destruct (last_component p) as (pre & seg & -> & Hpre & Hseg).
  destruct (split_simple_last pre seg Hpre Hseg) as [segs Hsplit].
  unfold file_name. rewrite Hsplit, last_last.
  destruct seg as [|c r].
  - rewrite app_nil_r. split; [|done].
    destruct Hpre as [->|[q ->]]; [done|].
    unfold path.ends_with_slash. by rewrite rev_app_distr.
  - split; [intros _; by rewrite basename_last_component|].
    unfold path.ends_with_slash. rewrite rev_app_distr.
    rewrite <- no_slash_rev in Hseg.
    destruct (rev (c :: r)) as [|d t] eqn:Hrev.
    { apply (f_equal (@rev N)) in Hrev. by rewrite rev_involutive in Hrev. }
    simpl in *. apply andb_true_iff in Hseg as [Hd _].
    apply negb_true_iff in Hd. by rewrite Hd.
Qed.

Lemma file_name_basename_cat :
  file_name (lit "/Users/me/Pictures/IMG_0001.JPG") = lit "IMG_0001.JPG"
  ∧ file_name (lit "/Users/me/album.jpg/") = lit "/Users/me/album.jpg/".
Proof.
  split.
  - rewrite (proj1 (file_name_basename (lit "/Users/me/Pictures/IMG_0001.JPG")));
      vm_compute; reflexivity.
  - apply (proj2 (file_name_basename (lit "/Users/me/album.jpg/"))).
    vm_compute. reflexivity.
Defined.

Lemma no_dot_app (a b : jsstr) : no_dot (a ++ b) = no_dot a && no_dot b.
Proof. apply forallb_app. Qed.

Lemma no_dot_rev (a : jsstr) : no_dot (rev a) = no_dot a.
Proof.
  induction a as [|c r IH]; [done|]. simpl.
  rewrite no_dot_app, IH. simpl. rewrite andb_true_r. apply andb_comm.
Qed.

Lemma no_dot_until_dot (s : jsstr) : no_dot (path.until_dot s) = true.
Proof.
  induction s as [|c r IH]; [done|]. simpl.
  destruct (c =? DOT) eqn:Hc; [done|]. simpl. by rewrite Hc, IH.
Qed.

Lemma from_dot_app (a t : jsstr) :
  no_dot a = true →
  path.from_dot (a ++ DOT :: t) = DOT :: t ∧ path.until_dot (a ++ DOT :: t) = a.
Proof.
  induction a as [|c r IH]; simpl; [done|].
  intros [Hc Hr]%andb_true_iff. apply negb_true_iff in Hc. rewrite Hc.
  destruct (IH Hr) as [-> ->]. done.
Qed.

Lemma from_dot_none (a : jsstr) : no_dot a = true → path.from_dot a = [].
Proof.
  induction a as [|c r IH]; simpl; [done|].
  intros [Hc Hr]%andb_true_iff. apply negb_true_iff in Hc. by rewrite Hc, IH.
Qed.

Lemma extname_shape (p : jsstr) : ext_shape (path.extname p).
Proof.
  unfold path.extname. destruct (path.from_dot _) as [|c stem]; [by left|].
  destruct (bool_decide (stem = [])); [by left|].
  destruct (_ && _); [by left|]. right. eexists. split; [done|].
  rewrite no_dot_rev. apply no_dot_until_dot.
Qed.

(** The extension of a file name made of a dot-free stem and an
    extension. *)
Lemma extname_stem_ext (p stem ext : jsstr) :
  path.basename p = stem ++ ext →
  no_dot stem = true → stem ≠ [] → ext_shape ext →
  path.extname p = ext.
Proof.
  intros Hbase Hstem Hne Hext. unfold path.extname. rewrite Hbase, rev_app_distr.
  assert (rev stem ≠ []) as Hrev.
  { intros E. apply (f_equal (@rev N)) in E. by rewrite rev_involutive in E. }
  destruct Hext as [->|(e & -> & He)].
  - simpl. rewrite from_dot_none; [done|]. by rewrite no_dot_rev.
  - simpl. rewrite <- app_assoc. simpl.
    destruct (from_dot_app (rev e) (rev stem)) as [-> ->]; [by rewrite no_dot_rev|].
    rewrite bool_decide_eq_false_2 by done.
    rewrite (bool_decide_eq_false_2 (rev stem = [DOT])), rev_involutive; [done|].
    intros E. rewrite <- no_dot_rev, E in Hstem. done.
Qed.

Lemma no_dot_sanitizeFilename (s : jsstr) : no_dot (sanitizeFilename s) = true.
Proof.
  pose proof (sanitizeFilename_chars s) as H.
  induction H as [|c r Hc _ IH]; [done|]. simpl. rewrite IH, andb_true_r.
  apply negb_true_iff, N.eqb_neq. intros ->. vm_compute in Hc. discriminate.
Qed.

Lemma no_dot_numeral (d : uint) : no_dot (lit (NilEmpty.string_of_uint d)) = true.
Proof. induction d; simpl; [done|..]; exact IHd. Qed.

Lemma no_dot_dec (k : nat) : no_dot (dec k) = true.
Proof. apply no_dot_numeral. Qed.

(** The names the resolver asks for, for a sanitized base name. *)
Lemma probe_name_stem (baseName ext : jsstr) (k : nat) :
  no_dot baseName = true → baseName ≠ [] →
  ∃ stem, probe_name baseName ext k = stem ++ ext
          ∧ no_dot stem = true ∧ stem ≠ [].
Proof.
  intros Hb Hne. destruct k as [|k].
  - by exists baseName.
  - exists (baseName ++ lit "_" ++ dec (S k)). split.
    + unfold probe_name. by rewrite <- !app_assoc.
    + split; [by rewrite !no_dot_app, Hb, no_dot_dec|]. by destruct baseName.
Qed.

Lemma probe_name_simple (baseName ext : jsstr) (k : nat) :
  no_slash baseName = true → no_dot baseName = true → baseName ≠ [] →
  no_slash ext = true →
  simple_segment (probe_name baseName ext k).
Proof.
  intros Hs Hd Hne He. destruct k as [|k]; [|by apply segment_simple].
  unfold probe_name. split; [by rewrite no_slash_app, Hs, He|].
  destruct baseName as [|c r]; [done|]. simpl in Hd.
  apply andb_true_iff in Hd as [Hc _]. apply negb_true_iff, N.eqb_neq in Hc.
  split; [done|]. split; intros [= -> _]; done.
Qed.

Lemma candidate_probe_name (dir baseName ext : jsstr) (k : nat) :
  candidate dir baseName ext k = path.join dir (probe_name baseName ext k).
Proof. by destruct k. Qed.

End Names.

(** ** Supported images and MIME types *)

Section ImageKinds.

(** X8.  [getMimeType] and [isImageFile] read the same seven extensions,
    without regard to case: a file [isImageFile] accepts gets the MIME type
    of its extension ([image/jpeg] for [.jpg]), and every file it rejects
    is sent as [image/jpeg]. *)
Theorem getMimeType_isImageFile (L : lowering) (filePath : jsstr) :
  getMimeType L filePath
  = if isImageFile L filePath
    then mime_of_extension (toLowerCase L (path.extname filePath))
    else lit "image/jpeg".
Proof.
  unfold getMimeType, isImageFile. cbn zeta.
  generalize (toLowerCase L (path.extname filePath)). intros ext.
  destruct (bool_decide (ext ∈ imageExtensions)) eqn:Hin.
  - apply bool_decide_eq_true in Hin. unfold imageExtensions in Hin.
    repeat (apply elem_of_cons in Hin as [->|Hin]; [by vm_compute|]).
    by apply elem_of_nil in Hin.
  - apply bool_decide_eq_false in Hin.
    unfold mimeTypes. by rewrite not_elem_of_list_to_map_1.
Qed.

Lemma isImageFile_lowercase (L : lowering) (p q : jsstr) :
  toLowerCase L (path.extname p) = toLowerCase L (path.extname q) →
  isImageFile L p = isImageFile L q ∧ getMimeType L p = getMimeType L q.
Proof. unfold isImageFile, getMimeType. cbn zeta. by intros ->. Qed.

End ImageKinds.

(** ** The collision resolver, continued *)

Section ResolverNames.

Context (dir baseName ext : jsstr).
Hypothesis no_slash_base : no_slash baseName = true.
Hypothesis no_slash_ext : no_slash ext = true.
Hypothesis simple_first : simple_segment (baseName ++ ext).

Lemma probe_name_segment (k : nat) : simple_segment (probe_name baseName ext k).
Proof. destruct k; [done | by apply segment_simple]. Qed.

Lemma basename_candidate (k : nat) :
  path.basename (candidate dir baseName ext k) = probe_name baseName ext k.
Proof.
  rewrite candidate_probe_name. apply basename_join, probe_name_segment.
Qed.

Lemma probe_name_inj (j k : nat) :
  probe_name baseName ext j = probe_name baseName ext k → j = k.
Proof.
  assert (∀ n, baseName ++ ext ≠ probe_name baseName ext (S n)) as Hfirst.
  { intros n H. simpl in H. apply app_inv_head in H.
    apply (f_equal length) in H. simpl in H. rewrite length_app in H. lia. }
  destruct j as [|j], k as [|k]; [done | | |].
  - intros H. by apply Hfirst in H.
  - intros H. symmetry in H. by apply Hfirst in H.
  - apply segment_inj.
Qed.

Lemma candidate_inj_all (j k : nat) :
  candidate dir baseName ext j = candidate dir baseName ext k → j = k.
Proof.
  intros H. apply (f_equal path.basename) in H.
  rewrite !basename_candidate in H. by apply probe_name_inj.
Qed.

(** X5.  For a base name and an extension without separators (and a plain
    file name [baseName ++ ext]), what [getUniqueFilename] returns is in
    [dir] under the name [baseName ++ ext] or [baseName_k ++ ext]; every
    lower-numbered name is taken, so the number [k] is at most the number
    of files there are. *)
Theorem getUniqueFilename_name (fuel : nat) (fs : FS) (p : jsstr) :
  getUniqueFilename fuel fs dir baseName ext = Some p →
  ∃ k, (k ≤ size fs)%nat
       ∧ p = path.join dir (probe_name baseName ext k)
       ∧ path.basename p = probe_name baseName ext k
       ∧ exists_in fs p = false
       ∧ ∀ i, (i < k)%nat →
           exists_in fs (path.join dir (probe_name baseName ext i)) = true.
Proof.
  intros Hp.
  apply (loop_sound dir baseName ext (exists_in fs) fuel 0 p) in Hp
    as (Hfree & k & _ & -> & Hbusy).
  exists k. split; [|split; [apply candidate_probe_name|split;
    [apply basename_candidate|split; [done|]]]].
  - assert (length (candidate dir baseName ext <$> seq 0 k)
            ≤ length (map_to_list fs).*1)%nat as Hlen.
    { apply submseteq_length, NoDup_submseteq.
      - apply NoDup_fmap_2_strong; [|apply NoDup_seq].
        intros x y _ _. apply candidate_inj_all.
      - intros q (i & -> & Hi%elem_of_seq)%list_elem_of_fmap.
        specialize (Hbusy i ltac:(lia)). unfold exists_in in Hbusy.
        destruct (fs !! candidate dir baseName ext i) as [data|] eqn:E; [|done].
        apply list_elem_of_fmap. exists (candidate dir baseName ext i, data).
        split; [done|]. by apply elem_of_map_to_list. }
    by rewrite !length_fmap, length_map_to_list, length_seq in Hlen.
  - intros i Hi. rewrite <- candidate_probe_name. apply Hbusy. lia.
Qed.

End ResolverNames.

Lemma getUniqueFilename_name_cats :
  ∃ k, (k ≤ 2)%nat
       ∧ path.basename (lit "/d/cat_2.jpg") = probe_name (lit "cat") (lit ".jpg") k.
Proof.
  destruct (getUniqueFilename_name (lit "/d") (lit "cat") (lit ".jpg")
              eq_refl eq_refl) with (fuel := 3%nat) (fs := two_cats)
              (p := lit "/d/cat_2.jpg")
    as (k & Hk & _ & Hbase & _).
  - split; [reflexivity|]. split; [|split]; vm_compute; discriminate.
  - vm_compute. reflexivity.
  - exists k. split; [exact Hk | exact Hbase].
Defined.

(** ** The rename orchestrator, continued *)

Section RenameEffects.

(** The supported extensions are extensions in lower case. *)
Lemma supported_extension (L : lowering) (ext : jsstr) :
  ext ∈ imageExtensions →
  ext_shape ext ∧ no_slash ext = true ∧ toLowerCase L ext = ext.
Proof.
  unfold imageExtensions. intros Hin.
  repeat (apply elem_of_cons in Hin as [->|Hin];
          [split; [right; eexists; split; reflexivity | split; reflexivity]|]).
  by apply elem_of_nil in Hin.
Qed.

(** The ["Name unchanged"] branch of [renameImage] is out of reach for an
    image that exists under the very name the suggestion stands for: its
    own path makes that name taken, the resolver returns a numbered name,
    and the file is renamed (or the rename fails). *)
Lemma renameImage_unchanged_unreachable (fuel : nat) (env : task_env)
    (imagePath model : jsstr) (fs fs1 : FS) (processed data : bytes)
    (suggestedName : jsstr) :
  (2 ≤ fuel)%nat →
  preprocessImage env imagePath fs = Some (Return processed, fs1) →
  describeImage env = Return suggestedName →
  sanitizeFilename suggestedName ≠ [] →
  path.join (path.dirname imagePath)
    (sanitizeFilename suggestedName
     ++ toLowerCase (case_mapping env) (path.extname imagePath)) = imagePath →
  fs1 !! imagePath = Some data →
  ∃ r fs' k,
    renameImage fuel env imagePath model fs = Some (Return r, fs')
    ∧ is_unchanged r = false
    ∧ (rename_failure env = None →
       r = renamed (path.basename imagePath)
             (probe_name (sanitizeFilename suggestedName)
                (toLowerCase (case_mapping env) (path.extname imagePath)) (S k))
       ∧ fs' !! imagePath = None).
Proof.
  intros Hfuel Hpre Hname Hclean Hsame Himage.
  rewrite renameImage_run, Hpre. unfold rename_after. cbn zeta.
  rewrite Hname, bool_decide_eq_false_2 by done.
  set (clean := sanitizeFilename suggestedName) in *.
  set (ext := toLowerCase (case_mapping env) (path.extname imagePath)) in *.
  assert (no_slash ext = true) as Hext
    by apply no_slash_toLowerCase, no_slash_extname.
  assert (∀ k, path.basename (candidate (path.dirname imagePath) clean ext k)
               = probe_name clean ext k) as Hbase.
  { intros k. rewrite candidate_probe_name. apply basename_join, probe_name_simple;
      [apply no_slash_sanitizeFilename | apply no_dot_sanitizeFilename | done | done]. }
  destruct (renameImage_fuel env imagePath suggestedName fs1 fuel Hfuel)
    as (newPath & Hpath & Hfree).
  fold clean ext in Hpath. rewrite Hpath.
  apply (loop_sound _ _ _ _ (fuel + size fs1) 0 newPath) in Hpath
    as (_ & k & _ & -> & _).
  destruct k as [|k].
  { exfalso. unfold candidate in Hfree. rewrite Hsame in Hfree.
    unfold exists_in in Hfree. by rewrite Himage in Hfree. }
  assert (path.basename imagePath
          ≠ path.basename (candidate (path.dirname imagePath) clean ext (S k)))
    as Hne.
  { rewrite <- Hsame at 1. change (path.join (path.dirname imagePath) (clean ++ ext))
      with (candidate (path.dirname imagePath) clean ext 0).
    rewrite !Hbase. simpl. intros E. apply app_inv_head in E.
    apply (f_equal length) in E. simpl in E. rewrite length_app in E. lia. }
  rewrite bool_decide_eq_false_2 by done.
  destruct (rename_failure env) as [e|].
  { do 2 eexists. exists k. split; [done|]. by split. }
  rewrite Himage. do 2 eexists. exists k. split; [done|]. split; [done|].
  intros _. split; [by rewrite Hbase|].
  rewrite lookup_insert_ne, lookup_delete_eq; [done|].
  intros E. apply (f_equal path.basename) in E. by symmetry in E.
Qed.

(** X7.  For a supported image, the name [renameImage] gives the file is
    the sanitized suggestion, possibly followed by [_k], followed by the
    original extension in lower case: the renamed file has that extension,
    so it is a supported image again, with the same MIME type. *)
Theorem renameImage_keeps_extension (fuel : nat) (env : task_env)
    (imagePath model : jsstr) (fs fs' : FS) (r : RenameResult.t) :
  isImageFile (case_mapping env) imagePath = true →
  renameImage fuel env imagePath model fs = Some (Return r, fs') →
  is_renamed r = true →
  ∃ newPath suggestedName k,
    describeImage env = Return suggestedName
    ∧ RenameResult.newName r
      = Some (probe_name (sanitizeFilename suggestedName)
                (toLowerCase (case_mapping env) (path.extname imagePath)) k)
    ∧ path.basename newPath
      = probe_name (sanitizeFilename suggestedName)
          (toLowerCase (case_mapping env) (path.extname imagePath)) k
    ∧ is_Some (fs' !! newPath)
    ∧ path.extname newPath
      = toLowerCase (case_mapping env) (path.extname imagePath)
    ∧ isImageFile (case_mapping env) newPath
      = isImageFile (case_mapping env) imagePath
    ∧ getMimeType (case_mapping env) newPath
      = getMimeType (case_mapping env) imagePath.
Proof.
  intros Himage Hrun Hrenamed.
  apply bool_decide_eq_true, (supported_extension (case_mapping env)) in Himage
    as (Hshape & Hslash & Hlower).
  rewrite renameImage_run in Hrun.
  destruct (preprocessImage env imagePath fs) as [[rp fs1]|]; [|done].
  unfold rename_after in Hrun. cbn zeta in Hrun.
  destruct rp as [e|processed]; [by injection Hrun as <- _|].
  destruct (describeImage env) as [e|suggestedName];
    [by injection Hrun as <- _|].
  destruct (bool_decide (sanitizeFilename suggestedName = [])) eqn:Hclean;
    [by injection Hrun as <- _|].
  apply bool_decide_eq_false in Hclean.
  destruct (getUniqueFilename _ _ _ _ _) as [newPath|] eqn:Hpath; [|done].
  destruct (bool_decide (path.basename imagePath = path.basename newPath));
    [by injection Hrun as <- _|].
  destruct (rename_failure env); [by injection Hrun as <- _|].
  destruct (fs1 !! imagePath) as [data|]; [|by injection Hrun as <- _].
  injection Hrun as <- <-.
  apply (loop_sound _ _ _ _ (fuel + size fs1) 0 newPath) in Hpath
    as (_ & k & _ & -> & _).
  set (clean := sanitizeFilename suggestedName) in *.
  set (ext := toLowerCase (case_mapping env) (path.extname imagePath)) in *.
  assert (path.basename (candidate (path.dirname imagePath) clean ext k)
          = probe_name clean ext k) as Hbase.
  { rewrite candidate_probe_name. apply basename_join, probe_name_simple;
      [apply no_slash_sanitizeFilename | apply no_dot_sanitizeFilename | done | done]. }
  assert (path.extname (candidate (path.dirname imagePath) clean ext k) = ext)
    as Hext.
  { destruct (probe_name_stem clean ext k) as (stem & Hstem & Hdot & Hne);
      [apply no_dot_sanitizeFilename | done |].
    by apply (extname_stem_ext _ stem); [rewrite Hbase | | |]. }
  exists (candidate (path.dirname imagePath) clean ext k), suggestedName, k.
  split; [done|]. split; [by simpl; rewrite Hbase|]. split; [done|].
  split; [by rewrite lookup_insert_eq|]. split; [done|].
  apply isImageFile_lowercase. by rewrite Hext.
Qed.

Lemma renameImage_keeps_extension_cat :
  ∃ newPath,
    path.extname newPath = lit ".jpg" ∧ isImageFile same_text newPath = true.
Proof.
  destruct (renameImage_keeps_extension 2 cat_env (lit "/d/cat.jpg") (lit "llava")
              cat_fs {[ lit "/d/cat_1.jpg" := jpeg ]}
              (renamed (lit "cat.jpg") (lit "cat_1.jpg")))
    as (newPath & _ & _ & _ & _ & _ & _ & Hext & Himage & _).
  - reflexivity.
  - vm_compute. reflexivity.
  - reflexivity.
  - exists newPath. split; [exact Hext | exact Himage].
Defined.

End RenameEffects.

(** ** The command: start-up *)

Section StartUp.





(** X11.  The images [init] hands on are the selected items that
    [isImageFile] accepts, in the order of the selection and under their
    own paths; each is named by [file_name], which is the base name of its
    path unless the path ends in a separator. *)
Theorem selected_images_filter (L : lowering) (items : list FinderItem) :
  ImageFile.path <$> selected_images L items
  = List.filter (isImageFile L) (item_path <$> items)
  ∧ Forall (λ img,
              isImageFile L (ImageFile.path img) = true
              ∧ ImageFile.name img = file_name (ImageFile.path img)
              ∧ (path.ends_with_slash (ImageFile.path img) = false →
                 ImageFile.name img = path.basename (ImageFile.path img)))
      (selected_images L items).
Proof.
  unfold selected_images. induction items as [|item rest [IHpaths IHall]];
    [by split|].
  cbn [flat_map fmap list_fmap List.filter].
  destruct (isImageFile L (item_path item)) eqn:Himage; [|by split].
  split; [simpl; by f_equal|]. simpl. constructor; [|done]. simpl.
  split; [done|]. split; [done|]. apply file_name_basename.
Qed.

End StartUp.

(** ** The batch runner, continued *)

Section BatchEffects.

Context (fuel : nat) (envs : nat → task_env) (model : jsstr).

Lemma filter_pending (l : list ProcessingResult.t) :
  Forall (λ r, ProcessingResult.status r = Status.pending) l →
  List.filter completed l = [].
Proof.
  induction 1 as [|r l Hr _ IH]; [done|].
  assert (completed r = false) as Hc by (unfold completed; by rewrite Hr).
  cbn [List.filter]. by rewrite Hc.
Qed.

(** X13.  Progress: once the first [k] tasks are done, exactly the first
    [k] rows of the view are terminal and every later row is still the
    pending entry it started as, so the counter in the title reads [k] of
    the number of images. *)
Theorem processImages_progress (images : list ImageFile.t) (fs : FS) (k : nat) :
  (S (size fs) < fuel)%nat → (k ≤ length images)%nat →
  ∃ st fs',
    processImages_loop fuel envs model (take k images) 0 (initial_state images) fs
    = Some (Return st, fs')
    ∧ length (results st) = length images
    ∧ completedCount (results st) = k
    ∧ (∀ j, (j < k)%nat → completed <$> results st !! j = Some true)
    ∧ (∀ j, (k ≤ j)%nat → results st !! j = initial_results images !! j)
    ∧ navigationTitle images (results st)
      = lit "Processing " ++ dec k ++ lit "/" ++ dec (length images).
Proof.
  intros Hfuel Hk.
  destruct (processImages_prefix fuel model envs images fs k ltac:(lia) Hk)
    as (st & fs' & Hrun & Hlen & Hres & _).
  exists st, fs'. split; [done|].
  assert (completedCount (results st) = k) as Hcount.
  { unfold completedCount. rewrite Hres, List.filter_app.
    rewrite (proj1 (filter_display _)), filter_pending.
    - by rewrite app_nil_r, length_fmap.
    - apply Forall_drop. unfold initial_results. by apply Forall_map, Forall_true. }
  split; [|split; [done|split; [|split]]].
  - rewrite Hres, length_app, length_fmap, length_drop, length_initial_results. lia.
  - intros j Hj. rewrite Hres, lookup_app_l by (rewrite length_fmap; lia).
    rewrite list_lookup_fmap.
    destruct (lookup_lt_is_Some_2 (outcomes st) j) as [r ->]; [lia|].
    simpl. by rewrite completed_display.
  - intros j Hj. rewrite Hres, lookup_app_r by (rewrite length_fmap; lia).
    rewrite length_fmap, Hlen, lookup_drop. f_equal. lia.
  - unfold navigationTitle. by rewrite Hcount.
Qed.

(** X14.  At the end of a batch the rows of the view are the outcomes as
    [display] shows them, none pending or processing, and the count in the
    toast is the number of rows shown as renamed or skipped. *)
Theorem processImages_rows (images : list ImageFile.t) (fs : FS) :
  (S (size fs) < fuel)%nat →
  ∃ st fs',
    processImages fuel envs model images fs = Some (Return st, fs')
    ∧ results st = display <$> outcomes st
    ∧ completedCount (results st) = length images
    ∧ successCount st = length (List.filter shown_as_done (results st)).
Proof.
  intros Hfuel.
  destruct (processImages_whole fuel model envs images fs ltac:(lia))
    as (st & fs' & Hrun & Hlen & Hres & Hcount & _).
  exists st, fs'. split; [done|]. split; [done|]. split.
  - unfold completedCount. rewrite Hres, (proj1 (filter_display _)).
    by rewrite length_fmap.
  - by rewrite Hcount, Hres, (proj2 (filter_display _)).
Qed.

End BatchEffects.

Section BatchEffectsRuns.

Lemma processImages_progress_run :
  ∃ st fs',
    processImages_loop 4 down_then_up (lit "llava") (take 1 two_images) 0
      (initial_state two_images) two_images_fs = Some (Return st, fs')
    ∧ completedCount (results st) = 1%nat.
Proof.
  destruct (processImages_progress 4 down_then_up (lit "llava") two_images
              two_images_fs 1)
    as (st & fs' & Hrun & _ & Hcount & _).
  { vm_compute. apply le_n. }
  { vm_compute. apply le_S, le_n. }
  exists st, fs'. split; [exact Hrun | exact Hcount].
Defined.

Lemma processImages_rows_run :
  ∃ st fs',
    processImages 4 down_then_up (lit "llava") two_images two_images_fs
    = Some (Return st, fs')
    ∧ successCount st = length (List.filter shown_as_done (results st)).
Proof.
  destruct (processImages_rows 4 down_then_up (lit "llava") two_images two_images_fs)
    as (st & fs' & Hrun & _ & _ & Hcount).
  { vm_compute. apply le_n. }
  exists st, fs'. split; [exact Hrun | exact Hcount].
Defined.

End BatchEffectsRuns.
